(** * utils.ts: edit distance, random sampling and chunking

    A shallow embedding of three helpers of [src/utils.ts]:
    [calculateLevenshteinDistance], [getRandomSamples] and [chunk].

    Conventions.
    - A JavaScript string is the list of its code units; the type of code
      units is any type with decidable equality.
    - A JavaScript array that is only written cell by cell ([dp]) is a finite
      map from indices to values ([gmap nat]); a missing key reads as
      [undefined], which the embedding renders as [None].
    - Arrays that are scanned or sliced ([items], [array]) are lists.
    - Integral JavaScript numbers are in [Z]; array lengths are in [nat]. *)

From Stdlib Require Import ZArith QArith Lia Ascii.
From stdpp Require Import gmap list sets strings.

Local Open Scope Z_scope.

(* ===================================================================== *)
(** ** Edit distance                                                      *)
(* ===================================================================== *)

Module Levenshtein.
Section Lev.

Context {char : Type} `{EqDecision char}.

(** A string of the program is the list of its code units, [list char],
    first one at index 0. *)

(** *** The dynamic-programming matrix of the source *)

(** [dp[i][j]]: reading a missing row or cell gives [None]. *)
Definition cell (dp : gmap nat (gmap nat Z)) (i j : nat) : option Z :=
  row ← dp !! i; row !! j.

(** [dp[i][j] = v]: the row [dp[i]] has to exist already (the source would
    raise a TypeError otherwise); the cell is created or overwritten. *)
Definition set_cell (dp : gmap nat (gmap nat Z)) (i j : nat) (v : Z)
  : option (gmap nat (gmap nat Z)) :=
  row ← dp !! i; Some (<[i := <[j := v]> row]> dp).

(** A [for] loop over consecutive indices, threading the matrix; a failing
    body aborts the loop. *)
Fixpoint for_each {S : Type} (idx : list nat) (body : nat → S → option S)
  (s : S) : option S :=
  match idx with
  | [] => Some s
  | i :: rest => s' ← body i s; for_each rest body s'
  end.

(** [for (let i = 0; i <= m; i++) { dp[i] = []; dp[i][0] = i; }] *)
Definition init_rows (m : nat) (dp : gmap nat (gmap nat Z))
  : option (gmap nat (gmap nat Z)) :=
  for_each (seq 0 (S m))
    (λ i dp, set_cell (<[i := ∅]> dp) i 0 (Z.of_nat i)) dp.

(** [for (let j = 0; j <= n; j++) { dp[0][j] = j; }] *)
Definition init_cols (n : nat) (dp : gmap nat (gmap nat Z))
  : option (gmap nat (gmap nat Z)) :=
  for_each (seq 0 (S n)) (λ j dp, set_cell dp 0 j (Z.of_nat j)) dp.

(** The body of the inner loop, for [i, j >= 1]. The comparison
    [str1[i - 1] === str2[j - 1]] is on the results of indexing, so two
    out-of-range reads would compare equal, as in the source. *)
Definition fill_cell (str1 str2 : list char) (i j : nat)
  (dp : gmap nat (gmap nat Z)) : option (gmap nat (gmap nat Z)) :=
  if decide (str1 !! (i - 1)%nat = str2 !! (j - 1)%nat) then
    d ← cell dp (i - 1) (j - 1);
    set_cell dp i j d
  else
    del ← cell dp (i - 1) j;
    ins ← cell dp i (j - 1);
    sub ← cell dp (i - 1) (j - 1);
    set_cell dp i j (Z.min (Z.min (del + 1) (ins + 1)) (sub + 1)).

(** [for (let i = 1; i <= m; i++) for (let j = 1; j <= n; j++) ...] *)
Definition fill_row (str1 str2 : list char) (n i : nat)
  (dp : gmap nat (gmap nat Z)) : option (gmap nat (gmap nat Z)) :=
  for_each (seq 1 n) (fill_cell str1 str2 i) dp.

Definition fill (str1 str2 : list char) (m n : nat)
  (dp : gmap nat (gmap nat Z)) : option (gmap nat (gmap nat Z)) :=
  for_each (seq 1 m) (fill_row str1 str2 n) dp.

(** The function of the source. [None] would mean that the run left the
    integers: a TypeError on a missing row, or [undefined] read from the
    matrix. [calculateLevenshteinDistance_total] shows it never happens. *)
Definition calculateLevenshteinDistance (str1 str2 : list char) : option Z :=
  let m := length str1 in
  let n := length str2 in
  dp ← init_rows m ∅;
  dp ← init_cols n dp;
  dp ← fill str1 str2 m n dp;
  cell dp m n.

(** *** Reference definitions *)

(** The recurrence as a recursive function, reading both strings from the
    front. *)
Fixpoint lev (a b : list char) : nat :=
  match a with
  | [] => length b
  | x :: a' =>
      (fix lev_a (b : list char) : nat :=
         match b with
         | [] => S (length a')
         | y :: b' =>
             if decide (x = y) then lev a' b'
             else S (Nat.min (Nat.min (lev a' (y :: b')) (lev_a b')) (lev a' b'))
         end) b
  end.

(** One edit operation on a string, anywhere in it. *)
Inductive edit1 : list char → list char → Prop :=
| edit_insert l1 x l2 : edit1 (l1 ++ l2) (l1 ++ x :: l2)
| edit_delete l1 x l2 : edit1 (l1 ++ x :: l2) (l1 ++ l2)
| edit_substitute l1 x y l2 : x ≠ y → edit1 (l1 ++ x :: l2) (l1 ++ y :: l2).

(** [edits k a b]: [k] edit operations, one after the other, turn [a] into
    [b]. *)
Inductive edits : nat → list char → list char → Prop :=
| edits_done a : edits 0 a a
| edits_step k a b c : edit1 a b → edits k b c → edits (S k) a c.

(** An alignment of cost [k]: both strings are consumed from the front, a
    common character is kept for free, every other move costs one. *)
Inductive align : nat → list char → list char → Prop :=
| align_nil : align 0 [] []
| align_keep k x a b : align k a b → align k (x :: a) (x :: b)
| align_sub k x y a b : x ≠ y → align k a b → align (S k) (x :: a) (y :: b)
| align_del k x a b : align k a b → align (S k) (x :: a) b
| align_ins k y a b : align k a b → align (S k) a (y :: b).

(** *** What the matrix holds while it is filled *)

(** Distance between the first [i] characters of [a] and the first [j] of
    [b]. *)
Definition pre (a b : list char) (i j : nat) : nat := lev (take i a) (take j b).

(** The cells [F] of [dp] hold the prefix distances. *)
Definition holds (a b : list char) (F : nat → nat → Prop)
  (dp : gmap nat (gmap nat Z)) : Prop :=
  ∀ i j, F i j → cell dp i j = Some (Z.of_nat (pre a b i j)).

(** The cells written when the nested loops reach row [i], column [j]. *)
Definition written (a b : list char) (i j : nat) : nat → nat → Prop :=
  λ i' j', (i' ≤ length a)%nat ∧ (j' ≤ length b)%nat
           ∧ ((i' < i)%nat ∨ j' = 0%nat ∨ (i' = i ∧ (j' < j)%nat)).

End Lev.
End Levenshtein.

(* ===================================================================== *)
(** ** Random sampling                                                    *)
(* ===================================================================== *)

Module Sampler.

(** The seeded generator. [getRandomSamples] builds the closure
    [myRandomUniform = randomUniform.source(randomLcg(seed))(0, 1)] from the
    d3-random package, which is imported and not part of the sources. The
    embedding takes it as an interface: [source] is the hidden state of the
    closure, [randomLcg seed] its state when it is created, and [draw g] one
    call [myRandomUniform()], giving the number returned and the state
    left behind. *)
Class Uniform (source : Type) := {
  randomLcg : Z → source;
  draw : source → Q * source
}.

Section Sampler.

Context {T : Type} {source : Type} `{!Uniform source}.

(** The local variables that the loops update. *)
Record state := State {
  sampledItems : list T;
  sampledIndexes : gset nat;
  generator : source
}.

(** [items.entries()]: every element paired with its index. *)
Definition entries (items : list T) : list (nat * T) := imap pair items.

(** One run of the [for ... of] loop, over the entries still to visit. The
    generator is called only when the left operand of [&&] is true; after a
    push that reaches [targetSize] the loop is left ([break]). *)
Fixpoint scan (replace : bool) (targetSize : Z) (threshold : Q)
  (todo : list (nat * T)) (s : state) : state :=
  match todo with
  | [] => s
  | (i, item) :: rest =>
      if replace || negb (bool_decide (i ∈ sampledIndexes s)) then
        let (u, g) := draw (generator s) in
        if Qle_bool u threshold then
          let s' := State (sampledItems s ++ [item]) ({[i]} ∪ sampledIndexes s) g in
          if bool_decide (targetSize ≤ Z.of_nat (length (sampledItems s'))) then s'
          else scan replace targetSize threshold rest s'
        else scan replace targetSize threshold rest
               (State (sampledItems s) (sampledIndexes s) g)
      else scan replace targetSize threshold rest s
  end.

(** [while (sampledItems.length < targetSize) { for ... }]. The fuel counts
    the passes that the loop may still make; [None] means that it is used up
    before the condition fails. *)
Fixpoint sample_loop (fuel : nat) (replace : bool) (targetSize : Z)
  (threshold : Q) (items : list T) (s : state) : option state :=
  if bool_decide (Z.of_nat (length (sampledItems s)) < targetSize) then
    match fuel with
    | O => None
    | S fuel' =>
        sample_loop fuel' replace targetSize threshold items
          (scan replace targetSize threshold (entries items) s)
    end
  else Some s.

(** [Math.min(size, items.length)] *)
Definition targetSize_of (items : list T) (size : Z) : Z :=
  Z.min size (Z.of_nat (length items)).

(** [targetSize / items.length]. For an empty [items] the source computes
    [NaN] or an infinity; the quotient is then never read, since the scan
    has no entry to visit. The quotient is exact here and rounded to a
    double in the source; the results below use only that it is positive
    when [targetSize] is, and 1 when [targetSize] is [items.length], which
    rounding preserves. *)
Definition threshold_of (items : list T) (size : Z) : Q :=
  (inject_Z (targetSize_of items size) / inject_Z (Z.of_nat (length items)))%Q.

(** The state of a call when the [while] loop is entered. *)
Definition initial (seed : Z) : state := State [] ∅ (randomLcg seed).

(** The state in which the call leaves the [while] loop. *)
Definition getRandomSamples_run (fuel : nat) (items : list T) (size : Z)
  (seed : Z) (replace : bool) : option state :=
  sample_loop fuel replace (targetSize_of items size) (threshold_of items size)
    items (initial seed).

(** [getRandomSamples(items, size, seed, replace)], with the passes of the
    [while] loop bounded by [fuel]. *)
Definition getRandomSamples (fuel : nat) (items : list T) (size : Z)
  (seed : Z) (replace : bool) : option (list T) :=
  sampledItems <$> getRandomSamples_run fuel items size seed replace.

(** The state after [k] passes of the [for ... of] loop, whether or not the
    [while] loop would have stopped earlier. *)
Definition passes (k : nat) (items : list T) (size : Z) (seed : Z)
  (replace : bool) : state :=
  Nat.iter k (scan replace (targetSize_of items size) (threshold_of items size)
                (entries items)) (initial seed).

(** The generator state [k] calls later. *)
Definition later (k : nat) (g : source) : source :=
  Nat.iter k (λ g, snd (draw g)) g.

(** Contract of a generator of numbers in [0, 1): no number exceeds 1. *)
Definition unit_range : Prop :=
  ∀ g : source, Qle_bool (fst (draw g)) 1 = true.

(** From every state on, the generator sooner or later returns a number at
    or below any positive bound. *)
Definition recurrent : Prop :=
  ∀ (q : Q) (g : source), (0 < q)%Q →
    ∃ k : nat, Qle_bool (fst (draw (later k g))) q = true.

(** The same within a number of calls: from every state on, one of the next
    [period] calls returns a number at or below any positive bound. *)
Definition recurrent_within (period : Z) : Prop :=
  ∀ (q : Q) (g : source), (0 < q)%Q →
    ∃ k : nat, Z.of_nat k < period ∧ Qle_bool (fst (draw (later k g))) q = true.

(** The indices [idxs], in this order, account for the sample in [s]: they
    are the members of [sampledIndexes] and they select [sampledItems] from
    [items]. *)
Definition chosen (items : list T) (s : state) (idxs : list nat) : Prop :=
  list_to_set idxs = sampledIndexes s
  ∧ Forall2 (λ i x, items !! i = Some x) idxs (sampledItems s).

(** Every pushed item comes with its index; when sampling without
    replacement the indices pushed so far stay pairwise different. *)
Definition accounted (replace : bool) (items : list T) (s : state) : Prop :=
  ∃ idxs, chosen items s idxs ∧ (replace = false → NoDup idxs).

(** The [k]-th call from [g] on returns a number at or below [threshold]. *)
Definition hit (threshold : Q) (k : nat) (g : source) : Prop :=
  Qle_bool (fst (draw (later k g))) threshold = true.

(** The [while] loop returns from [s] when given enough fuel. *)
Definition returns (replace : bool) (targetSize : Z) (threshold : Q)
  (items : list T) (s : state) : Prop :=
  ∃ fuel s', sample_loop fuel replace targetSize threshold items s = Some s'.

End Sampler.
End Sampler.

(** The generator that the source asks for, following the published code of
    d3-random ([lcg.js] and [uniform.js]); it instantiates [Uniform] for the
    concrete runs below. The state is a 32-bit signed integer. *)
Module D3.

Definition mul : Z := 0x19660D.
Definition inc : Z := 0x3C6EF35F.

(** [x | 0] *)
Definition to_int32 (x : Z) : Z := (x + 2 ^ 31) mod 2 ^ 32 - 2 ^ 31.

(** [x >>> 0] *)
Definition to_uint32 (x : Z) : Z := x mod 2 ^ 32.

(** [(0 <= seed && seed < 1 ? seed / eps : Math.abs(seed)) | 0], for an
    integral seed. *)
Definition lcg (seed : Z) : Z := to_int32 (Z.abs seed).

(** [(state = mul * state + inc | 0, eps * (state >>> 0))], and then the
    affine map of [randomUniform(0, 1)], which is the identity. *)
Definition next (state : Z) : Q * Z :=
  let state' := to_int32 (mul * state + inc) in
  (inject_Z (to_uint32 state') / inject_Z (2 ^ 32), state')%Q.

(** *** The period of the generator *)

(** The generator on unsigned residues. *)
Definition step (u : Z) : Z := (mul * u + inc) mod 2 ^ 32.

(** [affine (A, C)] is the map [u ↦ A u + C] modulo [2 ^ 32]. *)
Definition affine (m : Z * Z) (u : Z) : Z := (m.1 * u + m.2) mod 2 ^ 32.

(** The map applied twice. *)
Definition square (m : Z * Z) : Z * Z :=
  ((m.1 * m.1) mod 2 ^ 32, (m.1 * m.2 + m.2) mod 2 ^ 32).

(** [2 ^ j] steps of the generator, as one affine map. *)
Fixpoint jump (j : nat) : Z * Z :=
  match j with
  | O => (mul, inc)
  | S j' => square (jump j')
  end.

(** [2 ^ j] steps add [2 ^ j] modulo [2 ^ (j + 1)]. *)
Definition flips (j : nat) : bool :=
  ((jump j).1 mod 2 ^ Z.of_nat (S j) =? 1)
  && ((jump j).2 mod 2 ^ Z.of_nat (S j) =? 2 ^ Z.of_nat j).

#[export] Instance uniform : Sampler.Uniform Z :=
  {| Sampler.randomLcg := lcg; Sampler.draw := next |}.

End D3.

(** [randomLcg(seed)] returns a closure over a variable [state] of its own,
    which every call of the closure reads and overwrites. Here the variables
    [state] that closures have captured live in a store, a map from
    addresses, and a call of [getRandomSamples] starts in the store that the
    program has built so far: generators made and used by earlier calls, or
    by other code. *)
Module Closures.
Section Closures.

Context {T : Type} {source : Type} `{!Sampler.Uniform source}.

(** [randomLcg(seed)]: a new variable, initialised from the seed. The
    closure returned is known by the address of its variable. *)
Definition randomLcg (seed : Z) (h : gmap nat source)
  : nat * gmap nat source :=
  let a := fresh (dom h) in (a, <[a := Sampler.randomLcg seed]> h).

(** One call of the closure at address [a]. *)
Definition myRandomUniform (a : nat) (h : gmap nat source)
  : option (Q * gmap nat source) :=
  match h !! a with
  | Some g => let (u, g') := Sampler.draw g in Some (u, <[a := g']> h)
  | None => None
  end.

(** The two local containers. *)
Record locals := Locals {
  sampledItems : list T;
  sampledIndexes : gset nat
}.

(** The [for ... of] loop, with the generator at address [a]. *)
Fixpoint scan (a : nat) (replace : bool) (targetSize : Z) (threshold : Q)
  (todo : list (nat * T)) (v : locals) (h : gmap nat source)
  : option (locals * gmap nat source) :=
  match todo with
  | [] => Some (v, h)
  | (i, item) :: rest =>
      if replace || negb (bool_decide (i ∈ sampledIndexes v)) then
        match myRandomUniform a h with
        | Some (u, h') =>
            if Qle_bool u threshold then
              let v' := Locals (sampledItems v ++ [item]) ({[i]} ∪ sampledIndexes v) in
              if bool_decide (targetSize ≤ Z.of_nat (length (sampledItems v'))) then
                Some (v', h')
              else scan a replace targetSize threshold rest v' h'
            else scan a replace targetSize threshold rest v h'
        | None => None
        end
      else scan a replace targetSize threshold rest v h
  end.

(** The [while] loop; the fuel counts the passes. *)
Fixpoint sample_loop (fuel : nat) (a : nat) (replace : bool) (targetSize : Z)
  (threshold : Q) (items : list T) (v : locals) (h : gmap nat source)
  : option (locals * gmap nat source) :=
  if bool_decide (Z.of_nat (length (sampledItems v)) < targetSize) then
    match fuel with
    | O => None
    | S fuel' =>
        match scan a replace targetSize threshold (Sampler.entries items) v h with
        | Some (v', h') => sample_loop fuel' a replace targetSize threshold items v' h'
        | None => None
        end
    end
  else Some (v, h).

(** [getRandomSamples(items, size, seed, replace)], called in the store
    [h]: the sample returned, and the store that the call leaves. *)
Definition getRandomSamples (fuel : nat) (items : list T) (size : Z)
  (seed : Z) (replace : bool) (h : gmap nat source)
  : option (list T * gmap nat source) :=
  let targetSize := Sampler.targetSize_of items size in
  let threshold := Sampler.threshold_of items size in
  let (a, h) := randomLcg seed h in
  match sample_loop fuel a replace targetSize threshold items (Locals [] ∅) h with
  | Some (v, h') => Some (sampledItems v, h')
  | None => None
  end.

End Closures.
End Closures.

(* ===================================================================== *)
(** ** Chunking                                                           *)
(* ===================================================================== *)

Module Chunk.

(** How a call ends: with a value, or with a thrown [Error]. *)
Inductive outcome (A : Type) : Type :=
| Returns (value : A)
| Throws (message : string).
Arguments Returns {A} value.
Arguments Throws {A} message.

Section Chunk.

Context {T : Type}.

(** An integral argument of [Array.prototype.slice], made relative to the
    array: negative values count from the end, everything is clamped. *)
Definition relative (len k : Z) : Z :=
  if bool_decide (k < 0) then Z.max (len + k) 0 else Z.min k len.

(** [array.slice(start, end)] *)
Definition slice (array : list T) (start stop : Z) : list T :=
  let len := Z.of_nat (length array) in
  let from := relative len start in
  let to := relative len stop in
  take (Z.to_nat (to - from)) (drop (Z.to_nat from) array).

(** [for (let i = 0; i < array.length; i += size) result.push(...)], from
    the current [i] and [result] on. The fuel counts the rounds the loop may
    still make. *)
Fixpoint chunk_loop (fuel : nat) (array : list T) (size i : Z)
  (result : list (list T)) : option (list (list T)) :=
  if bool_decide (i < Z.of_nat (length array)) then
    match fuel with
    | O => None
    | S fuel' =>
        chunk_loop fuel' array size (i + size)
          (result ++ [slice array i (i + size)])
    end
  else Some result.

(** [chunk(array, size)] for an integral [size]. Every round moves [i] up by
    at least one, so [array.length] rounds are enough; [None] would mean
    they were not. *)
Definition chunk (array : list T) (size : Z) : option (outcome (list (list T))) :=
  if bool_decide (size ≤ 0) then Some (Throws "Size must be greater than 0")
  else Returns <$> chunk_loop (length array) array size 0 [].

End Chunk.
End Chunk.

(* ===================================================================== *)
(** ** Sets, file names, colours and rectangles                           *)
(* ===================================================================== *)

Module Helpers.

(** [setsAreEqual(set1, set2)]: the sizes are compared first, then every
    member of [set1] is looked up in [set2]. *)
Definition setsAreEqual `{Countable A} (set1 set2 : gset A) : bool :=
  bool_decide (size set1 = size set2)
  && forallb (λ d, bool_decide (d ∈ set2)) (elements set1).

Section FileName.

Context {char : Type} `{EqDecision char}.

(** [s.lastIndexOf(x)] for a search string of the one character [x]: the
    last index at which [x] stands in [s], counted from [i] for the first
    character, and [-1] when there is none. *)
Fixpoint lastIndexOf_from (i : Z) (x : char) (s : list char) : Z :=
  match s with
  | [] => -1
  | c :: rest =>
      let later := lastIndexOf_from (i + 1) x rest in
      if bool_decide (0 ≤ later) then later
      else if decide (c = x) then i else -1
  end.

Definition lastIndexOf (x : char) (s : list char) : Z := lastIndexOf_from 0 x s.

(** [splitFileName(file)], on the name of the file; [dot] is the character
    ['.']. The second slice has no end argument, which stands for the
    length of the name. *)
Definition splitFileName (dot : char) (name : list char)
  : list char * list char :=
  let lastDot := lastIndexOf dot name in
  let value := Chunk.slice name 0 lastDot in
  let extension := Chunk.slice name (lastDot + 1) (Z.of_nat (length name)) in
  (value, extension).

End FileName.

(** *** [rgbToHex] *)

(** The sixteen digits of [Number.prototype.toString(16)]. *)
Definition hexDigit (d : Z) : ascii :=
  match d with
  | 0 => "0" | 1 => "1" | 2 => "2" | 3 => "3" | 4 => "4" | 5 => "5"
  | 6 => "6" | 7 => "7" | 8 => "8" | 9 => "9" | 10 => "a" | 11 => "b"
  | 12 => "c" | 13 => "d" | 14 => "e" | _ => "f"
  end%char.

(** The digits of a natural number in base 16, most significant first, in
    front of [acc]; [fuel] bounds the number of digits. *)
Fixpoint digits16 (fuel : nat) (n : Z) (acc : string) : string :=
  let acc' := String (hexDigit (n mod 16)) acc in
  match fuel with
  | O => acc'
  | S fuel' => if bool_decide (n < 16) then acc' else digits16 fuel' (n / 16) acc'
  end.

(** [number.toString(16)] for an integral [number]: a minus sign for a
    negative number, then the digits of its absolute value. A number below
    [2 ^ k] has at most [k] digits. *)
Definition toString16 (number : Z) : string :=
  let digits := digits16 (Z.to_nat (Z.log2 (Z.abs number))) (Z.abs number) "" in
  if bool_decide (number < 0) then String "-"%char digits else digits.

(** The local function [numToHex] of [rgbToHex]. *)
Definition numToHex (number : Z) : string :=
  let hex := toString16 number in
  if bool_decide (String.length hex = 1%nat) then String "0"%char hex else hex.

(** [rgbToHex(r, g, b)] *)
Definition rgbToHex (r g b : Z) : string :=
  String "#"%char (numToHex r +:+ numToHex g +:+ numToHex b).

(** The value of a digit. *)
Definition hexValue (c : ascii) : Z :=
  match List.find (λ d, bool_decide (hexDigit d = c)) (map Z.of_nat (seq 0 16)) with
  | Some d => d
  | None => -1
  end.

(** *** [rectsIntersect] *)

(** The interface [Rect], with coordinates that are integers. *)
Record Rect := { x : Z; y : Z; width : Z; height : Z }.

(** The double nearest to the integer [z], ties going to the even
    significand. Integers of magnitude up to [2 ^ 53] are doubles; a larger
    double is a multiple [q * 2 ^ e] with [q] below [2 ^ 53]. A magnitude
    that rounds to [2 ^ 1024] or more gives an infinity, for which
    [2 ^ 1024] stands here: it lies beyond every double, as the infinity
    does. *)
Definition round_double (z : Z) : Z :=
  let a := Z.abs z in
  if a <? 2 ^ 53 then z
  else
    let e := Z.log2 a - 52 in
    let q := a / 2 ^ e in
    let r := a mod 2 ^ e in
    let half := 2 ^ (e - 1) in
    let up := (half <? r) || ((half =? r) && Z.odd q) in
    Z.sgn z * Z.min (2 ^ 1024) ((if up then q + 1 else q) * 2 ^ e).

(** [a + b] on two doubles that are integers: the sum, rounded. *)
Definition double_add (a b : Z) : Z := round_double (a + b).

Definition rectsIntersect (rect1 rect2 : Rect) : bool :=
  let right1 := double_add (x rect1) (width rect1) in
  let right2 := double_add (x rect2) (width rect2) in
  let bottom1 := double_add (y rect1) (height rect1) in
  let bottom2 := double_add (y rect2) (height rect2) in
  bool_decide (x rect1 < right2)
  && bool_decide (right1 > x rect2)
  && bool_decide (y rect1 < bottom2)
  && bool_decide (bottom1 > y rect2).

(** The unit square with lower corner [(px, py)] lies in [r]. *)
Definition has_pixel (r : Rect) (px py : Z) : Prop :=
  x r ≤ px ∧ px + 1 ≤ x r + width r ∧ y r ≤ py ∧ py + 1 ≤ y r + height r.

(** The corners of [r] are integers that doubles hold exactly: no
    coordinate and no size exceeds [2 ^ 52] in magnitude, so no sum exceeds
    [2 ^ 53]. *)
Definition in_doubles (r : Rect) : Prop :=
  Z.abs (x r) ≤ 2 ^ 52 ∧ Z.abs (y r) ≤ 2 ^ 52
  ∧ Z.abs (width r) ≤ 2 ^ 52 ∧ Z.abs (height r) ≤ 2 ^ 52.

End Helpers.

(* ===================================================================== *)
(** ** Splitting strings and streams                                      *)
(* ===================================================================== *)

Module Streams.

Section Split.

Context {char : Type} `{EqDecision char}.

(** [sep] stands at the front of [s]. *)
Fixpoint starts_with (sep s : list char) : bool :=
  match sep, s with
  | [], _ => true
  | x :: sep', c :: s' => bool_decide (x = c) && starts_with sep' s'
  | _ :: _, [] => false
  end.

(** The scan of [String.prototype.split] for a non-empty separator, from
    left to right: [part] holds the characters read since the last
    separator; where the separator stands, the part is closed and the
    [skip] further characters of the separator are passed over. *)
Fixpoint split_go (sep : list char) (skip : nat) (part : list char)
  (s : list char) : list (list char) :=
  match s with
  | [] => [part]
  | c :: rest =>
      match skip with
      | S skip' => split_go sep skip' part rest
      | O =>
          if starts_with sep s
          then part :: split_go sep (length sep - 1) [] rest
          else split_go sep 0 (part ++ [c]) rest
      end
  end.

(** [s.split(sep)]: with an empty separator, the characters of [s] one by
    one. *)
Definition split (sep s : list char) : list (list char) :=
  match sep with
  | [] => (λ c, [c]) <$> s
  | _ :: _ => split_go sep 0 [] s
  end.

(** [parts.join(sep)] *)
Fixpoint join (sep : list char) (parts : list (list char)) : list char :=
  match parts with
  | [] => []
  | [part] => part
  | part :: rest => part ++ sep ++ join sep rest
  end.

(** What the callbacks of [splitStreamTransform] share and produce: the
    variable [buffer], and what has been handed to [controller.enqueue]. *)
Record stream := Stream { buffer : list char; enqueued : list (list char) }.

(** The callback [transform]. When [parts] is empty its last element is
    [undefined], which is outside the strings of this embedding: the result
    is [None] then. *)
Definition transform (sep chunk : list char) (st : stream) : option stream :=
  let buffer := buffer st ++ chunk in
  let parts := split sep buffer in
  rest ← last parts;
  Some (Stream rest (enqueued st ++ Chunk.slice parts 0 (-1))).

(** The callback [flush]: a non-empty buffer is enqueued. *)
Definition flush (st : stream) : list (list char) :=
  if bool_decide (buffer st ≠ []) then enqueued st ++ [buffer st]
  else enqueued st.

(** The chunks written to the stream, in order. *)
Fixpoint feed (sep : list char) (chunks : list (list char)) (st : stream)
  : option stream :=
  match chunks with
  | [] => Some st
  | chunk :: later => st' ← transform sep chunk st; feed sep later st'
  end.

(** Everything the stream of [splitStreamTransform(sep)] enqueues when
    [chunks] are written to it and it is closed. *)
Definition splitStream (sep : list char) (chunks : list (list char))
  : option (list (list char)) :=
  flush <$> feed sep chunks (Stream [] []).

End Split.

Section Words.

Context `{Countable char}.

(** [getNumCommonWords(str1, str2)]; [toLocaleLowerCase] is the method of
    the platform and [space] the character [' ']. *)
Definition getNumCommonWords (toLocaleLowerCase : list char → list char)
  (space : char) (str1 str2 : list char) : nat :=
  let words1 := split [space] (toLocaleLowerCase str1) in
  let words2 : gset (list char) :=
    list_to_set (split [space] (toLocaleLowerCase str2)) in
  length (filter (λ w, w ∈ words2) words1).

End Words.

End Streams.

(* ===================================================================== *)
(** ** Timing                                                             *)
(* ===================================================================== *)

Module Timing.

(** What [timeit] reads and writes: the module's set [timeitQueue], and the
    console, of which the embedding keeps the table of running timers and
    the number of warnings printed. *)
Record world := World {
  timeitQueue : gset string;
  timers : gset string;
  warnings : nat
}.

(** [console.time(label)]: a timer that runs already is not restarted, the
    console warns instead. *)
Definition console_time (label : string) (w : world) : world :=
  if bool_decide (label ∈ timers w)
  then World (timeitQueue w) (timers w) (S (warnings w))
  else World (timeitQueue w) ({[label]} ∪ timers w) (warnings w).

(** [console.timeEnd(label)]: the timer is printed and removed; when there
    is none the console warns. *)
Definition console_timeEnd (label : string) (w : world) : world :=
  if bool_decide (label ∈ timers w)
  then World (timeitQueue w) (timers w ∖ {[label]}) (warnings w)
  else World (timeitQueue w) (timers w) (S (warnings w)).

(** [timeit(label, show)] *)
Definition timeit (label : string) (show : bool) (w : world) : world :=
  if show then
    if bool_decide (label ∈ timeitQueue w) then
      let w' := console_timeEnd label w in
      World (timeitQueue w' ∖ {[label]}) (timers w') (warnings w')
    else
      let w' := console_time label w in
      World ({[label]} ∪ timeitQueue w') (timers w') (warnings w')
  else w.

(** A series of calls, in order. *)
Definition timeit_all (calls : list (string * bool)) (w : world) : world :=
  foldl (λ w call, timeit call.1 call.2 w) w calls.

End Timing.

(* ===================================================================== *)
(** ** Tooltip timers                                                     *)
(* ===================================================================== *)

Module Tooltip.

(** The two closures that the source hands to [setTimeout]: the one of
    [tooltipMouseEnter], which shows the tooltip, and the one of
    [tooltipMouseLeave], which hides it. *)
Inductive callback := ShowTooltip | HideTooltip.

(** The tooltip and the timers of the page. [hidden] tells whether the
    class list of [tooltipElement] holds ['hidden']; the two timer fields
    are those of [TooltipConfig], [None] for [null]; [pending] maps the
    identifiers of the timeouts that are set and have neither fired nor been
    cleared to their callbacks, and [next_id] is the next identifier that
    [setTimeout] gives out. *)
Record page := Page {
  hidden : bool;
  mouseenterTimer : option nat;
  mouseleaveTimer : option nat;
  pending : gmap nat callback;
  next_id : nat
}.

(** [setTimeout(callback, delay)]: a fresh identifier, returned with the
    page. The delay only says when the timeout may fire, which the events
    below leave open. *)
Definition setTimeout (cb : callback) (p : page) : nat * page :=
  (next_id p,
   Page (hidden p) (mouseenterTimer p) (mouseleaveTimer p)
     (<[next_id p := cb]> (pending p)) (S (next_id p))).

(** [clearTimeout(id)] *)
Definition clearTimeout (id : nat) (p : page) : page :=
  Page (hidden p) (mouseenterTimer p) (mouseleaveTimer p)
    (delete id (pending p)) (next_id p).

Definition set_mouseenterTimer (t : option nat) (p : page) : page :=
  Page (hidden p) t (mouseleaveTimer p) (pending p) (next_id p).

Definition set_mouseleaveTimer (t : option nat) (p : page) : page :=
  Page (hidden p) (mouseenterTimer p) t (pending p) (next_id p).

Definition set_hidden (h : bool) (p : page) : page :=
  Page h (mouseenterTimer p) (mouseleaveTimer p) (pending p) (next_id p).

(** [if (tooltip.mouseenterTimer !== null) { clearTimeout(...); ... = null }] *)
Definition cancel_mouseenter (p : page) : page :=
  match mouseenterTimer p with
  | Some id => set_mouseenterTimer None (clearTimeout id p)
  | None => p
  end.

Definition cancel_mouseleave (p : page) : page :=
  match mouseleaveTimer p with
  | Some id => set_mouseleaveTimer None (clearTimeout id p)
  | None => p
  end.

(** [updatePopperTooltip], as far as the timers and the class list go. The
    call uses the results of [tooltip.querySelector('.popper-content')] and
    [tooltip.querySelector('.popper-arrow')] unchecked, so it throws a
    [TypeError] when the tooltip element lacks one of them ([found] is
    [false]): that is [None]. Otherwise it returns; it sets no timer, and
    what its promise does to the class list comes as an event of its own. *)
Definition updatePopperTooltip (found : bool) (p : page) : option page :=
  if found then Some p else None.

(** [tooltipMouseEnter], for a tooltip that is not [null] ([given]). In the
    branch of a visible tooltip the call of [updatePopperTooltip] is the
    last statement: whether it returns or throws, the page is the one that
    the lines before it leave. *)
Definition tooltipMouseEnter (given : bool) (p : page) : page :=
  if given then
    if hidden p then
      let p := cancel_mouseenter p in
      let (id, p) := setTimeout ShowTooltip p in
      set_mouseenterTimer (Some id) p
    else cancel_mouseleave p
  else p.

(** [tooltipMouseLeave] *)
Definition tooltipMouseLeave (given : bool) (p : page) : page :=
  if given then
    let p := cancel_mouseenter p in
    let p := cancel_mouseleave p in
    let (id, p) := setTimeout HideTooltip p in
    set_mouseleaveTimer (Some id) p
  else p.

(** The bodies of the two closures. The one that shows the tooltip calls
    [updatePopperTooltip] first: when that call throws, the closure ends
    there, and neither the class list nor [mouseenterTimer] is written. *)
Definition run (cb : callback) (found : bool) (p : page) : page :=
  match cb with
  | ShowTooltip =>
      match updatePopperTooltip found p with
      | Some p => set_mouseenterTimer None (set_hidden false p)
      | None => p
      end
  | HideTooltip => set_mouseleaveTimer None (set_hidden true p)
  end.

(** What can happen on the page: the two handlers are called, a pending
    timeout fires, with the tooltip element as [updatePopperTooltip] would
    find it at that moment, or the promise of [updatePopperTooltip] resolves
    and hides or shows the tooltip after [referenceHidden]. *)
Inductive event :=
| MouseEnter
| MouseLeave
| Fire (id : nat) (found : bool)
| PopperResolved (referenceHidden : bool).

Definition react (p : page) (e : event) : page :=
  match e with
  | MouseEnter => tooltipMouseEnter true p
  | MouseLeave => tooltipMouseLeave true p
  | Fire id found =>
      match pending p !! id with
      | Some cb => run cb found (clearTimeout id p)
      | None => p
      end
  | PopperResolved referenceHidden => set_hidden referenceHidden p
  end.

(** A tooltip with both timers [null], on a page with no timeout set. *)
Definition idle (hidden : bool) : page := Page hidden None None ∅ 0.

(** Every pending timeout is held by the timer field of its kind;
    [mouseleaveTimer] holds nothing else, and [mouseenterTimer] nothing else
    but a timeout that is no longer pending. *)
Definition tracked (p : page) : Prop :=
  (∀ id cb, pending p !! id = Some cb →
            (cb = ShowTooltip ∧ mouseenterTimer p = Some id)
            ∨ (cb = HideTooltip ∧ mouseleaveTimer p = Some id))
  ∧ (∀ id, mouseleaveTimer p = Some id → pending p !! id = Some HideTooltip)
  ∧ (∀ id, mouseenterTimer p = Some id → pending p !! id ≠ Some HideTooltip)
  ∧ (∀ id, is_Some (pending p !! id) → (id < next_id p)%nat).



End Tooltip.

Import Levenshtein.

Section LevFacts.

Context {char : Type} `{EqDecision char}.
Implicit Types a b c : list char.

Lemma align_refl a : align 0 a a.
Proof. induction a; by constructor. Qed.

Lemma align_sym k a b : align k a b → align k b a.
Proof. induction 1; by constructor. Qed.

(** Alignments compose without exceeding the sum of their costs. *)
Lemma align_trans n m a b c :
  align n a b → align m b c → ∃ k, (k ≤ n + m)%nat ∧ align k a c.
Proof.
  intros H1. revert m c.
  induction H1 as [|n x a b H1 IH|n x y a b Hxy H1 IH|n x a b H1 IH|n y a b H1 IH];
    intros m c H2.
  - exists m. split; [lia | done].
  - remember (x :: b) as xb eqn:E.
    induction H2 as [|m z b0 c H2 _|m z w b0 c Hzw H2 _|m z b0 c H2 _|m w b0 c H2 IH2];
      simplify_eq.
    + destruct (IH _ _ H2) as (k & Hk & Hal). exists k. split; [lia | by constructor].
    + destruct (IH _ _ H2) as (k & Hk & Hal). exists (S k). split; [lia | by constructor].
    + destruct (IH _ _ H2) as (k & Hk & Hal). exists (S k). split; [lia | by constructor].
    + destruct (IH2 eq_refl) as (k & Hk & Hal). exists (S k). split; [lia | by constructor].
  - remember (y :: b) as yb eqn:E.
    induction H2 as [|m z b0 c H2 _|m z w b0 c Hzw H2 _|m z b0 c H2 _|m w b0 c H2 IH2];
      simplify_eq.
    + destruct (IH _ _ H2) as (k & Hk & Hal). exists (S k). split; [lia | by constructor].
    + destruct (IH _ _ H2) as (k & Hk & Hal).
      destruct (decide (x = w)) as [->|Hxw].
      * exists k. split; [lia | by constructor].
      * exists (S k). split; [lia | by constructor].
    + destruct (IH _ _ H2) as (k & Hk & Hal). exists (S k). split; [lia | by constructor].
    + destruct (IH2 eq_refl) as (k & Hk & Hal). exists (S k). split; [lia | by constructor].
  - destruct (IH _ _ H2) as (k & Hk & Hal). exists (S k). split; [lia | by constructor].
  - remember (y :: b) as yb eqn:E.
    induction H2 as [|m z b0 c H2 _|m z w b0 c Hzw H2 _|m z b0 c H2 _|m w b0 c H2 IH2];
      simplify_eq.
    + destruct (IH _ _ H2) as (k & Hk & Hal). exists (S k). split; [lia | by constructor].
    + destruct (IH _ _ H2) as (k & Hk & Hal). exists (S k). split; [lia | by constructor].
    + destruct (IH _ _ H2) as (k & Hk & Hal). exists k. split; [lia | done].
    + destruct (IH2 eq_refl) as (k & Hk & Hal). exists (S k). split; [lia | by constructor].
Qed.

(** Unfolding equations of [lev]. *)
Lemma lev_nil_l b : lev [] b = length b.
Proof. done. Qed.

Lemma lev_nil_r a : lev a [] = length a.
Proof. by destruct a. Qed.

Lemma lev_cons x y a b :
  lev (x :: a) (y :: b) =
    if decide (x = y) then lev a b
    else S (Nat.min (Nat.min (lev a (y :: b)) (lev (x :: a) b)) (lev a b)).
Proof. done. Qed.

Lemma align_nil_l k b : align k [] b → k = length b.
Proof.
  remember [] as a eqn:E. induction 1; simplify_eq; simpl; auto.
Qed.

Lemma align_nil_r k a : align k a [] → k = length a.
Proof. intros Hal. by apply align_sym, align_nil_l in Hal. Qed.

Lemma align_drop_l a : align (length a) a [].
Proof. induction a; simpl; by constructor. Qed.

Lemma align_drop_r b : align (length b) [] b.
Proof. induction b; simpl; by constructor. Qed.

(** [lev a b] is the cost of a cheapest alignment of [a] with [b]. *)
Lemma lev_align a b : align (lev a b) a b.
Proof.
  revert b. induction a as [|x a IHa]; intros b.
  - apply align_drop_r.
  - induction b as [|y b IHb].
    + rewrite lev_nil_r. apply align_drop_l.
    + rewrite lev_cons. destruct (decide (x = y)) as [->|Hxy].
      * by constructor.
      * destruct (Nat.min_spec (lev a (y :: b)) (lev (x :: a) b)) as [[_ E1]|[_ E1]];
          rewrite E1;
          match goal with
          | |- context [Nat.min ?u ?v] =>
              destruct (Nat.min_spec u v) as [[_ E2]|[_ E2]]; rewrite E2
          end; by constructor.
Qed.

Lemma lev_least k a b : align k a b → (lev a b ≤ k)%nat.
Proof.
  revert b k. induction a as [|x a IHa]; intros b k Hal.
  - apply align_nil_l in Hal. by subst.
  - revert k Hal. induction b as [|y b IHb]; intros k Hal.
    + apply align_nil_r in Hal. subst. by rewrite lev_nil_r.
    + rewrite lev_cons. destruct (decide (x = y)) as [->|Hxy].
      * inversion Hal as [|? ? ? ? H1|? ? ? ? ? ? H1|? ? ? ? H1|? ? ? ? H1]; subst.
        -- by apply IHa.
        -- apply IHa in H1. lia.
        -- destruct (align_trans _ 1 _ _ b H1) as (k' & Hk' & Hal');
             [apply align_del, align_refl|].
           apply IHa in Hal'. lia.
        -- destruct (align_trans 1 _ a _ _ (align_ins _ y _ _ (align_refl a)) H1)
             as (k' & Hk' & Hal').
           apply IHa in Hal'. lia.
      * inversion Hal as [|? ? ? ? H1|? ? ? ? ? ? H1|? ? ? ? H1|? ? ? ? H1]; subst.
        -- done.
        -- apply IHa in H1. lia.
        -- apply IHa in H1. lia.
        -- apply IHb in H1. lia.
Qed.

(** The triangle inequality of the reference distance. *)
Lemma lev_triangle a b c : (lev a c ≤ lev a b + lev b c)%nat.
Proof.
  destruct (align_trans _ _ _ _ _ (lev_align a b) (lev_align b c)) as (k & Hk & Hal).
  apply lev_least in Hal. lia.
Qed.

Lemma lev_refl a : lev a a = 0%nat.
Proof. pose proof (lev_least _ _ _ (align_refl a)). lia. Qed.

Lemma lev_sym a b : lev a b = lev b a.
Proof.
  pose proof (lev_least _ _ _ (align_sym _ _ _ (lev_align a b))).
  pose proof (lev_least _ _ _ (align_sym _ _ _ (lev_align b a))).
  lia.
Qed.

(** Edit sequences and alignments. *)
Lemma edit1_cons x a b : edit1 a b → edit1 (x :: a) (x :: b).
Proof.
  destruct 1 as [l1 y l2|l1 y l2|l1 y z l2 Hyz].
  - apply (edit_insert (x :: l1)).
  - apply (edit_delete (x :: l1)).
  - by apply (edit_substitute (x :: l1)).
Qed.

Lemma edits_cons k x a b : edits k a b → edits k (x :: a) (x :: b).
Proof.
  induction 1 as [|k a b c H1 _ IH]; [constructor|].
  eapply edits_step; [by apply edit1_cons | done].
Qed.

Lemma align_edits k a b : align k a b → edits k a b.
Proof.
  induction 1 as [|k x a b _ IH|k x y a b Hxy _ IH|k x a b _ IH|k y a b _ IH].
  - constructor.
  - by apply edits_cons.
  - apply edits_step with (y :: a); [by apply (edit_substitute [])|].
    by apply edits_cons.
  - apply edits_step with a; [apply (edit_delete [])| done].
  - apply edits_step with (y :: a); [apply (edit_insert [])|].
    by apply edits_cons.
Qed.

Lemma align_app_keep l k a b : align k a b → align k (l ++ a) (l ++ b).
Proof. intros Hal. induction l; simpl; [done | by constructor]. Qed.

Lemma edit1_align a b : edit1 a b → align 1 a b.
Proof.
  destruct 1 as [l1 y l2|l1 y l2|l1 y z l2 Hyz]; apply align_app_keep.
  - apply align_ins, align_refl.
  - apply align_del, align_refl.
  - apply align_sub; [done | apply align_refl].
Qed.

Lemma edits_lev k a b : edits k a b → (lev a b ≤ k)%nat.
Proof.
  induction 1 as [a|k a b c H1 _ IH].
  - by rewrite lev_refl.
  - pose proof (lev_least _ _ _ (edit1_align _ _ H1)).
    pose proof (lev_triangle a b c). lia.
Qed.

Lemma edit1_reverse a b : edit1 a b → edit1 (reverse a) (reverse b).
Proof.
  destruct 1 as [l1 y l2|l1 y l2|l1 y z l2 Hyz];
    rewrite ?reverse_app, ?reverse_cons, <- ?(assoc_L (++)); simpl.
  - apply edit_insert.
  - apply edit_delete.
  - by apply edit_substitute.
Qed.

Lemma edits_reverse k a b : edits k a b → edits k (reverse a) (reverse b).
Proof.
  induction 1 as [|k a b c H1 _ IH]; [constructor|].
  eapply edits_step; [by apply edit1_reverse | done].
Qed.

(** Reading the strings from the back gives the same minimum. *)
Lemma lev_reverse_edits a b : edits (lev (reverse a) (reverse b)) a b.
Proof.
  rewrite <- (reverse_involutive a) at 2. rewrite <- (reverse_involutive b) at 2.
  apply edits_reverse, align_edits, lev_align.
Qed.

Lemma lev_reverse_least k a b : edits k a b → (lev (reverse a) (reverse b) ≤ k)%nat.
Proof. intros Hed. by apply edits_lev, edits_reverse. Qed.

Lemma lev_reverse a b : lev (reverse a) (reverse b) = lev a b.
Proof.
  apply Nat.le_antisymm.
  - apply lev_reverse_least, align_edits, lev_align.
  - apply edits_lev, lev_reverse_edits.
Qed.

(** *** The matrix of the source holds the distances of the prefixes *)

Lemma pre_0_l a b j : (j ≤ length b)%nat → pre a b 0 j = j.
Proof. intros Hj. unfold pre. rewrite take_0, lev_nil_l, length_take. lia. Qed.

Lemma pre_0_r a b i : (i ≤ length a)%nat → pre a b i 0 = i.
Proof. intros Hi. unfold pre. rewrite take_0, lev_nil_r, length_take. lia. Qed.

Lemma pre_full a b : pre a b (length a) (length b) = lev a b.
Proof. unfold pre. by rewrite !firstn_all. Qed.

Lemma pre_S a b i j x y :
  a !! i = Some x → b !! j = Some y →
  pre a b (S i) (S j) =
    if decide (x = y) then pre a b i j
    else S (Nat.min (Nat.min (pre a b i (S j)) (pre a b (S i) j)) (pre a b i j)).
Proof.
  intros Hx Hy. unfold pre.
  rewrite <- (lev_reverse (take (S i) a)), <- (lev_reverse (take i a) (take (S j) b)),
    <- (lev_reverse (take (S i) a) (take j b)), <- (lev_reverse (take i a) (take j b)).
  rewrite (take_S_r a i x Hx), (take_S_r b j y Hy), !reverse_snoc.
  apply lev_cons.
Qed.

Lemma for_each_inv {S : Type} (I : nat → S → Prop) lo len
  (body : nat → S → option S) s :
  I lo s →
  (∀ i s, (lo ≤ i < lo + len)%nat → I i s → ∃ s', body i s = Some s' ∧ I (Datatypes.S i) s') →
  ∃ s', for_each (seq lo len) body s = Some s' ∧ I (lo + len)%nat s'.
Proof.
  revert lo s. induction len as [|len IH]; intros lo s H0 Hstep; simpl.
  - exists s. by rewrite Nat.add_0_r.
  - destruct (Hstep lo s) as (s1 & -> & H1); [lia | done |]. simpl.
    destruct (IH (Datatypes.S lo) s1) as (s2 & -> & H2); [done | |].
    + intros i s' Hi. apply Hstep. lia.
    + exists s2. split; [done|]. by replace (lo + Datatypes.S len)%nat with (Datatypes.S lo + len)%nat by lia.
Qed.

Lemma cell_set_cell dp dp' i j v i' j' :
  set_cell dp i j v = Some dp' →
  cell dp' i' j' = if decide (i' = i ∧ j' = j) then Some v else cell dp i' j'.
Proof.
  unfold set_cell, cell. destruct (dp !! i) as [row|] eqn:Hrow; [|done].
  simpl. intros [= <-].
  destruct (decide (i' = i)) as [->|Hi].
  - rewrite lookup_insert_eq, Hrow. simpl.
    destruct (decide (j' = j)) as [->|Hj].
    + rewrite lookup_insert_eq. by rewrite decide_True.
    + rewrite lookup_insert_ne by done. rewrite decide_False; [done | lia].
  - rewrite lookup_insert_ne by done. rewrite decide_False; [done | lia].
Qed.

Lemma set_cell_some dp i j0 j v w :
  cell dp i j0 = Some w → ∃ dp', set_cell dp i j v = Some dp'.
Proof.
  unfold cell, set_cell. destruct (dp !! i); [|done]. simpl. eauto.
Qed.

Lemma init_rows_spec a b :
  ∃ dp, init_rows (length a) ∅ = Some dp
        ∧ holds a b (λ i j, (i ≤ length a)%nat ∧ j = 0%nat) dp.
Proof.
  destruct (for_each_inv
    (λ k dp, holds a b (λ i j, (i < k)%nat ∧ (i ≤ length a)%nat ∧ j = 0%nat) dp)
    0 (S (length a)) (λ i dp, set_cell (<[i := ∅]> dp) i 0 (Z.of_nat i)) ∅)
    as (dp & Hrun & Hdp).
  - intros i j [Hi _]. lia.
  - intros k dp Hk Hinv.
    destruct (set_cell (<[k:=∅]> dp) k 0 (Z.of_nat k)) as [dp'|] eqn:Hset;
      [|by unfold set_cell in Hset; rewrite lookup_insert_eq in Hset].
    exists dp'. split; [done|]. intros i j (Hi & Hia & ->).
    rewrite (cell_set_cell _ _ _ _ _ _ _ Hset). case_decide as Hd.
    + destruct Hd as [-> _]. by rewrite pre_0_r.
    + unfold cell. rewrite lookup_insert_ne by lia.
      apply (Hinv i 0%nat). split; [|done].
      lia.
  - exists dp. split; [done|]. intros i j [Hi ->]. apply Hdp. lia.
Qed.

Lemma init_cols_spec a b dp :
  holds a b (λ i j, (i ≤ length a)%nat ∧ j = 0%nat) dp →
  ∃ dp', init_cols (length b) dp = Some dp'
         ∧ holds a b (λ i j, (i ≤ length a)%nat ∧ (j ≤ length b)%nat
                             ∧ (i = 0%nat ∨ j = 0%nat)) dp'.
Proof.
  intros H0.
  destruct (for_each_inv
    (λ k dp, holds a b (λ i j, (i ≤ length a)%nat ∧ (j ≤ length b)%nat
                               ∧ ((i = 0 ∧ j < k)%nat ∨ j = 0%nat)) dp)
    0 (S (length b)) (λ j dp, set_cell dp 0 j (Z.of_nat j)) dp)
    as (dp' & Hrun & Hdp).
  - intros i j (Hi & Hj & [[_ ?]| ->]); [lia|]. by apply H0.
  - intros k dp0 Hk Hinv.
    destruct (set_cell_some dp0 0 0 k (Z.of_nat k) _
                (Hinv 0%nat 0%nat (conj (Nat.le_0_l _) (conj (Nat.le_0_l _) (or_intror eq_refl)))))
      as [dp1 Hset].
    exists dp1. split; [done|]. intros i j (Hi & Hj & Hij).
    rewrite (cell_set_cell _ _ _ _ _ _ _ Hset). case_decide as Hd.
    + destruct Hd as [-> ->]. by rewrite pre_0_l.
    + apply Hinv. split_and!; [done..|].
      destruct Hij as [[-> Hjk]|]; [left|by right].
      lia.
  - exists dp'. split; [done|]. intros i j (Hi & Hj & Hij). apply Hdp.
    split_and!; [done..|]. destruct Hij as [->|]; [left; lia | by right].
Qed.

Lemma fill_cell_spec a b i j dp :
  (1 ≤ i ≤ length a)%nat → (1 ≤ j ≤ length b)%nat →
  holds a b (written a b i j) dp →
  ∃ dp', fill_cell a b i j dp = Some dp' ∧ holds a b (written a b i (S j)) dp'.
Proof.
  intros Hi Hj Hinv.
  destruct i as [|i]; [lia|]. destruct j as [|j]; [lia|].
  destruct (lookup_lt_is_Some_2 a i) as [x Hx]; [lia|].
  destruct (lookup_lt_is_Some_2 b j) as [y Hy]; [lia|].
  assert (Hdiag : cell dp i j = Some (Z.of_nat (pre a b i j))).
  { apply Hinv. unfold written. lia. }
  assert (Hup : cell dp i (S j) = Some (Z.of_nat (pre a b i (S j)))).
  { apply Hinv. unfold written. lia. }
  assert (Hleft : cell dp (S i) j = Some (Z.of_nat (pre a b (S i) j))).
  { apply Hinv. unfold written. lia. }
  assert (Hnew : ∀ v, v = Z.of_nat (pre a b (S i) (S j)) →
            ∃ dp', set_cell dp (S i) (S j) v = Some dp'
                   ∧ holds a b (written a b (S i) (S (S j))) dp').
  { intros v ->.
    destruct (set_cell_some dp (S i) j (S j) (Z.of_nat (pre a b (S i) (S j))) _ Hleft)
      as [dp' Hset].
    exists dp'. split; [done|]. intros i' j' Hw.
    rewrite (cell_set_cell _ _ _ _ _ _ _ Hset). case_decide as Hd.
    - by destruct Hd as [-> ->].
    - apply Hinv. unfold written in *. lia. }
  unfold fill_cell.
  replace (S i - 1)%nat with i by lia. replace (S j - 1)%nat with j by lia.
  rewrite Hx, Hy.
  rewrite (pre_S a b i j x y Hx Hy) in Hnew.
  destruct (decide (Some x = Some y)) as [[= ->]|Hne].
  - rewrite Hdiag. simpl. apply Hnew. by rewrite decide_True.
  - rewrite Hup, Hleft, Hdiag. simpl. apply Hnew.
    rewrite decide_False by congruence. lia.
Qed.

Lemma fill_row_spec a b i dp :
  (1 ≤ i ≤ length a)%nat →
  holds a b (written a b i 1) dp →
  ∃ dp', fill_row a b (length b) i dp = Some dp' ∧ holds a b (written a b (S i) 1) dp'.
Proof.
  intros Hi Hinv.
  destruct (for_each_inv (λ j dp, holds a b (written a b i j) dp)
              1 (length b) (fill_cell a b i) dp) as (dp' & Hrun & Hdp); [done | |].
  - intros j dp0 Hj. apply fill_cell_spec; [done | lia].
  - exists dp'. split; [done|]. intros i' j' Hw. apply Hdp. unfold written in *. lia.
Qed.

Lemma fill_spec a b dp :
  holds a b (written a b 1 1) dp →
  ∃ dp', fill a b (length a) (length b) dp = Some dp'
         ∧ holds a b (written a b (S (length a)) 1) dp'.
Proof.
  intros Hinv.
  destruct (for_each_inv (λ i dp, holds a b (written a b i 1) dp)
              1 (length a) (fill_row a b (length b)) dp) as (dp' & Hrun & Hdp); [done | |].
  - intros i dp0 Hi. apply fill_row_spec. lia.
  - exists dp'. split; [done|]. intros i' j' Hw. apply Hdp. unfold written in *. lia.
Qed.

(** The function returns the reference distance of its arguments; in
    particular it returns a number on every pair of strings. *)
Lemma calculateLevenshteinDistance_lev a b :
  calculateLevenshteinDistance a b = Some (Z.of_nat (lev a b)).
Proof.
  unfold calculateLevenshteinDistance.
  destruct (init_rows_spec a b) as (dp1 & -> & H1). simpl.
  destruct (init_cols_spec a b dp1 H1) as (dp2 & -> & H2). simpl.
  destruct (fill_spec a b dp2) as (dp3 & -> & H3).
  { intros i j Hw. apply H2. unfold written in Hw. lia. }
  simpl. rewrite (H3 (length a) (length b)), pre_full; [done|].
  unfold written. lia.
Qed.

Lemma calculateLevenshteinDistance_total a b :
  is_Some (calculateLevenshteinDistance a b).
Proof. rewrite calculateLevenshteinDistance_lev. eauto. Qed.

End LevFacts.

Import Sampler.

Section SamplerFacts.

Context {T : Type} {source : Type} `{!Uniform source}.
Implicit Types (s : @state T source) (todo : list (nat * T)) (items : list T).

Section Scan.

Variables (replace : bool) (targetSize : Z) (threshold : Q).

(** A pass never takes anything out of the sample. *)
Lemma scan_length_mono todo s :
  (length (sampledItems s) ≤ length (sampledItems (scan replace targetSize threshold todo s)))%nat.
Proof.
  revert s. induction todo as [|[i item] rest IH]; intros s; simpl; [done|].
  destruct (replace || negb (bool_decide (i ∈ sampledIndexes s))); [|apply IH].
  destruct (draw (generator s)) as [u g].
  destruct (Qle_bool u threshold).
  - case_bool_decide.
    + simpl. rewrite length_app. simpl. lia.
    + etrans; [|apply IH]. simpl. rewrite length_app. simpl. lia.
  - etrans; [|apply IH]. done.
Qed.

(** A pass that starts below the target stops at the target at the latest. *)
Lemma scan_length_bound todo s :
  Z.of_nat (length (sampledItems s)) < targetSize →
  Z.of_nat (length (sampledItems (scan replace targetSize threshold todo s))) ≤ targetSize.
Proof.
  revert s. induction todo as [|[i item] rest IH]; intros s Hs; simpl; [lia|].
  destruct (replace || negb (bool_decide (i ∈ sampledIndexes s))); [|by apply IH].
  destruct (draw (generator s)) as [u g].
  destruct (Qle_bool u threshold).
  - case_bool_decide as Hd.
    + simpl in *. rewrite length_app in *. simpl in *. lia.
    + apply IH. simpl in *. lia.
  - by apply IH.
Qed.

Lemma scan_accounted items todo s :
  Forall (λ p, items !! p.1 = Some p.2) todo →
  accounted replace items s →
  accounted replace items (scan replace targetSize threshold todo s).
Proof.
  intros Htodo. revert s.
  induction Htodo as [|[i item] rest Hi _ IH]; intros s Hs; simpl; [done|].
  destruct (replace || negb (bool_decide (i ∈ sampledIndexes s))) eqn:Helig;
    [|by apply IH].
  destruct (draw (generator s)) as [u g].
  assert (Hpush : accounted replace items
            (State (sampledItems s ++ [item]) ({[i]} ∪ sampledIndexes s) g)).
  { destruct Hs as (idxs & [Hset Hsel] & Hnd).
    exists (idxs ++ [i]). split; [split|]; simpl.
    - rewrite list_to_set_app_L, Hset. simpl.
      rewrite (right_id_L ∅ (∪)). apply (comm_L (∪)).
    - apply Forall2_app; [done|]. by constructor.
    - intros ->. simpl in Helig. apply negb_true_iff, bool_decide_eq_false in Helig.
      apply NoDup_app. split_and!; [by apply Hnd | | apply NoDup_singleton].
      intros j Hj ->%list_elem_of_singleton. apply Helig. rewrite <- Hset.
      by apply elem_of_list_to_set. }
  clear Helig. destruct (Qle_bool u threshold).
  - case_bool_decide; [exact Hpush | apply IH, Hpush].
  - apply IH. destruct Hs as (idxs & [Hset Hsel] & Hnd). by exists idxs.
Qed.

End Scan.

Lemma entries_lookup items :
  Forall (λ p, items !! p.1 = Some p.2) (entries items).
Proof.
  apply Forall_forall. intros [i x] Hin. unfold entries in Hin.
  apply elem_of_lookup_imap in Hin as (j & y & [= -> ->] & Hy). done.
Qed.

Lemma initial_accounted replace items seed : accounted replace items (initial seed).
Proof. exists []. split; [split; [done | constructor] | intros _; constructor]. Qed.

Lemma passes_accounted k items size seed replace :
  accounted replace items (passes k items size seed replace).
Proof.
  induction k as [|k IH]; [apply initial_accounted|].
  unfold passes. rewrite Nat.iter_succ.
  apply scan_accounted; [apply entries_lookup | apply IH].
Qed.

(** *** The [while] loop *)

Lemma sample_loop_fuel_mono fuel fuel' replace targetSize threshold items s s' :
  (fuel ≤ fuel')%nat →
  sample_loop fuel replace targetSize threshold items s = Some s' →
  sample_loop fuel' replace targetSize threshold items s = Some s'.
Proof.
  revert fuel' s. induction fuel as [|fuel IH]; intros fuel' s Hle; simpl.
  - case_bool_decide as Hd; [done|]. intros [= <-].
    destruct fuel'; simpl; by rewrite bool_decide_eq_false_2.
  - case_bool_decide as Hd.
    + destruct fuel' as [|fuel']; [lia|]. simpl. rewrite bool_decide_eq_true_2 by done.
      apply IH. lia.
    + intros [= <-]. destruct fuel'; simpl; by rewrite bool_decide_eq_false_2.
Qed.

(** The loop is the iteration of the pass, up to the first state that meets
    the target. *)
Lemma sample_loop_passes fuel replace targetSize threshold items s s' :
  sample_loop fuel replace targetSize threshold items s = Some s' →
  ∃ k, (k ≤ fuel)%nat
       ∧ s' = Nat.iter k (scan replace targetSize threshold (entries items)) s
       ∧ ¬ Z.of_nat (length (sampledItems s')) < targetSize.
Proof.
  revert s. induction fuel as [|fuel IH]; intros s; simpl.
  - case_bool_decide as Hd; [done|]. intros [= <-]. exists 0%nat. done.
  - case_bool_decide as Hd.
    + intros (k & Hk & -> & Hstop)%IH. exists (S k). split; [lia|].
      by rewrite Nat.iter_succ_r.
    + intros [= <-]. exists 0%nat. split; [lia | done].
Qed.

Lemma sample_loop_length fuel replace targetSize threshold items s s' :
  Z.of_nat (length (sampledItems s)) ≤ Z.max targetSize 0 →
  sample_loop fuel replace targetSize threshold items s = Some s' →
  Z.of_nat (length (sampledItems s')) = Z.max targetSize (Z.of_nat (length (sampledItems s))).
Proof.
  revert s. induction fuel as [|fuel IH]; intros s Hs; simpl.
  - case_bool_decide as Hd; [done|]. intros [= <-]. lia.
  - case_bool_decide as Hd; [|intros [= <-]; lia].
    intros Hrun. apply IH in Hrun.
    + pose proof (scan_length_mono replace targetSize threshold (entries items) s).
      pose proof (scan_length_bound replace targetSize threshold (entries items) s Hd).
      lia.
    + pose proof (scan_length_bound replace targetSize threshold (entries items) s Hd).
      lia.
Qed.

(** *** Progress of a pass *)

Lemma later_S k (g : source) : later (S k) g = later k (snd (draw g)).
Proof. unfold later. by rewrite Nat.iter_succ_r. Qed.

Lemma later_add k m (g : source) : later (k + m) g = later k (later m g).
Proof. unfold later. by rewrite Nat.iter_add. Qed.

(** A pass either pushes an item, or leaves the sample alone and calls the
    generator once for every entry that may be taken, using up that many of
    the calls that separate the generator from its next low number. *)
Lemma scan_progress replace targetSize threshold todo s k :
  hit threshold k (generator s) →
  (length (sampledItems s)
     < length (sampledItems (scan replace targetSize threshold todo s)))%nat
  ∨ (sampledItems (scan replace targetSize threshold todo s) = sampledItems s
     ∧ sampledIndexes (scan replace targetSize threshold todo s) = sampledIndexes s
     ∧ ∃ m, generator (scan replace targetSize threshold todo s) = later m (generator s)
            ∧ (m ≤ k)%nat
            ∧ ((∃ i x, (i, x) ∈ todo
                       ∧ replace || negb (bool_decide (i ∈ sampledIndexes s)) = true)
               → (1 ≤ m)%nat)).
Proof.
  revert s k. induction todo as [|[i item] rest IH]; intros s k Hk; simpl.
  - right. split_and!; [done..|]. exists 0%nat. split_and!; [done | lia |].
    intros (j & x & Hin & _). by apply elem_of_nil in Hin.
  - destruct (replace || negb (bool_decide (i ∈ sampledIndexes s))) eqn:Helig.
    + destruct (draw (generator s)) as [u g] eqn:Hdraw.
      destruct (Qle_bool u threshold) eqn:Hu.
      * left. clear Helig. case_bool_decide.
        -- simpl. rewrite length_app. simpl. lia.
        -- eapply Nat.lt_le_trans; [|apply scan_length_mono].
           simpl. rewrite length_app. simpl. lia.
      * destruct k as [|k].
        { unfold hit, later in Hk. simpl in Hk. rewrite Hdraw in Hk. simpl in Hk.
          congruence. }
        unfold hit in Hk. rewrite later_S, Hdraw in Hk. simpl in Hk.
        destruct (IH (State (sampledItems s) (sampledIndexes s) g) k Hk)
          as [Hlt|(Hitems & Hidx & m & Hgen & Hm & _)]; [by left|].
        right. split_and!; [done..|]. exists (S m). split_and!; [|lia..].
        simpl in Hgen. by rewrite Hgen, later_S, Hdraw.
    + destruct (IH s k Hk) as [Hlt|(Hitems & Hidx & m & Hgen & Hm & Hone)]; [by left|].
      right. split_and!; [done..|]. exists m. split_and!; [done..|].
      intros (j & x & Hin & Hj). apply Hone. exists j, x. split; [|done].
      apply elem_of_cons in Hin as [[= -> ->]|Hin]; [congruence | done].
Qed.

(** While the sample is smaller than the population, sampling without
    replacement still has an index to take. *)
Lemma fresh_index items s :
  accounted false items s →
  (length (sampledItems s) < length items)%nat →
  ∃ i x, (i, x) ∈ entries items ∧ i ∉ sampledIndexes s.
Proof.
  intros (idxs & [Hset Hsel] & Hnd) Hlen. specialize (Hnd eq_refl).
  apply Forall2_length in Hsel.
  destruct (decide (Forall (λ i, i ∈ sampledIndexes s) (seq 0 (length items))))
    as [Hall|Hex].
  - exfalso.
    assert (Hsub : seq 0 (length items) ⊆+ idxs).
    { apply NoDup_submseteq; [apply NoDup_seq|].
      intros i Hi. rewrite Forall_forall in Hall. specialize (Hall i Hi).
      rewrite <- Hset in Hall. by apply elem_of_list_to_set in Hall. }
    apply submseteq_length in Hsub. rewrite length_seq in Hsub. lia.
  - apply not_Forall_Exists in Hex; [|solve_decision].
    apply Exists_exists in Hex as (i & Hi & Hfresh).
    apply elem_of_seq in Hi.
    destruct (lookup_lt_is_Some_2 items i) as [x Hx]; [lia|].
    exists i, x. split; [|done]. unfold entries.
    apply elem_of_lookup_imap. by exists i, x.
Qed.

Lemma returns_pass replace targetSize threshold items s :
  Z.of_nat (length (sampledItems s)) < targetSize →
  returns replace targetSize threshold items
    (scan replace targetSize threshold (entries items) s) →
  returns replace targetSize threshold items s.
Proof.
  intros Hlt (fuel & s' & Hrun). exists (S fuel), s'. simpl.
  by rewrite bool_decide_eq_true_2.
Qed.

Lemma returns_done replace targetSize threshold items s :
  ¬ Z.of_nat (length (sampledItems s)) < targetSize →
  returns replace targetSize threshold items s.
Proof.
  intros Hge. exists 0%nat, s. simpl. by rewrite bool_decide_eq_false_2.
Qed.

Lemma sample_loop_returns replace targetSize threshold items s :
  recurrent → (0 < threshold)%Q → targetSize ≤ Z.of_nat (length items) →
  accounted replace items s →
  returns replace targetSize threshold items s.
Proof.
  intros Hrec Hthr Hts.
  remember (Z.to_nat (targetSize - Z.of_nat (length (sampledItems s)))) as r eqn:Hr.
  revert s Hr. induction (lt_wf r) as [r _ IHr]. intros s Hr Hacc.
  destruct (Hrec threshold (generator s) Hthr) as [k Hk]. fold (hit threshold k (generator s)) in Hk.
  revert s Hr Hacc Hk. induction (lt_wf k) as [k _ IHk]. intros s Hr Hacc Hk.
  destruct (decide (Z.of_nat (length (sampledItems s)) < targetSize)) as [Hlt|Hge];
    [|by apply returns_done].
  apply returns_pass; [done|].
  pose proof (scan_accounted replace targetSize threshold items (entries items) s
                (entries_lookup items) Hacc) as Hacc1.
  destruct (scan_progress replace targetSize threshold (entries items) s k Hk)
    as [Hgrow|(Hitems & Hidx & m & Hgen & Hm & Hone)].
  - eapply IHr; [|done|done]. lia.
  - assert (1 ≤ m)%nat as Hm1.
    { apply Hone. destruct replace.
      - destruct items as [|x items]; [simpl in *; lia|].
        exists 0%nat, x. split; [|done]. unfold entries. simpl. apply elem_of_cons. by left.
      - destruct (fresh_index items s Hacc) as (i & x & Hin & Hfresh); [lia|].
        exists i, x. split; [done|]. simpl. by rewrite bool_decide_eq_false_2. }
    apply (IHk (k - m)%nat); [lia | by rewrite Hitems | done |].
    unfold hit in *. rewrite Hgen, <- later_add.
    by replace (k - m + m)%nat with k by lia.
Qed.

Lemma threshold_positive items size :
  0 < targetSize_of items size → (0 < threshold_of items size)%Q.
Proof.
  intros Hts. unfold threshold_of.
  assert (0 < Z.of_nat (length items)) by (unfold targetSize_of in Hts; lia).
  apply Qlt_shift_div_l; unfold Qlt; simpl; lia.
Qed.

(** With a recurrent generator every call returns. *)
Lemma getRandomSamples_run_returns items size seed replace :
  recurrent → ∃ fuel s, getRandomSamples_run fuel items size seed replace = Some s.
Proof.
  intros Hrec. unfold getRandomSamples_run.
  destruct (decide (0 < targetSize_of items size)) as [Hpos|Hneg].
  - apply sample_loop_returns; [done | by apply threshold_positive | |].
    + unfold targetSize_of. lia.
    + apply initial_accounted.
  - apply returns_done. simpl. lia.
Qed.

(** *** A pass in which every number is at or below the threshold *)

(** Such a pass over the entries of [suffix], numbered by [f], pushes them
    all, when the target is the whole population [pre ++ suffix]. *)
Lemma scan_takes_all replace threshold suffix :
  (∀ g : source, Qle_bool (fst (draw g)) threshold = true) →
  ∀ (f : nat → nat) (pre : list T) s,
    Inj (=) (=) f →
    sampledItems s = pre →
    (replace = true ∨ ∀ j, f j ∉ sampledIndexes s) →
    suffix ≠ [] →
    sampledItems (scan replace (Z.of_nat (length (pre ++ suffix))) threshold
                    (imap (λ j x, (f j, x)) suffix) s) = pre ++ suffix.
Proof.
  intros Hacc. induction suffix as [|x rest IH]; intros f pre s Hinj Hpre Hfresh Hne;
    [done|].
  rewrite imap_cons. cbn [scan].
  assert (replace || negb (bool_decide (f 0%nat ∈ sampledIndexes s)) = true) as ->.
  { destruct Hfresh as [->|Hfresh]; [done|].
    rewrite (bool_decide_eq_false_2 _ (Hfresh 0%nat)). apply orb_true_r. }
  pose proof (Hacc (generator s)) as Hu.
  destruct (draw (generator s)) as [u g]. simpl in Hu. rewrite Hu. cbn [sampledItems].
  rewrite Hpre. case_bool_decide as Hstop.
  - cbn [sampledItems]. destruct rest; [done|].
    rewrite !length_app in Hstop. simpl in Hstop. lia.
  - replace (pre ++ x :: rest) with ((pre ++ [x]) ++ rest) by (by rewrite <- (assoc_L (++))).
    apply (IH (f ∘ S)).
    + intros j j' Hj. simpl in Hj. apply Hinj in Hj. lia.
    + done.
    + destruct Hfresh as [->|Hfresh]; [by left | right].
      intros j. simpl. intros [Hj%elem_of_singleton|Hj]%elem_of_union.
      * apply Hinj in Hj. lia.
      * by apply (Hfresh (S j)).
    + intros ->. apply Hstop. rewrite !length_app. simpl. lia.
Qed.

Lemma threshold_full items size :
  items ≠ [] → Z.of_nat (length items) ≤ size → (threshold_of items size == 1)%Q.
Proof.
  intros Hne Hsize. unfold threshold_of, targetSize_of.
  rewrite Z.min_r by lia. apply Qmult_inv_r.
  destruct items; [done|]. unfold Qeq. simpl. lia.
Qed.

(** When the whole population is asked for, one pass returns it, in order. *)
Lemma getRandomSamples_run_full items size seed replace :
  unit_range → items ≠ [] → Z.of_nat (length items) ≤ size →
  sampledItems <$> getRandomSamples_run 1 items size seed replace = Some items.
Proof.
  intros Hrange Hne Hsize. unfold getRandomSamples_run.
  assert (Hts : targetSize_of items size = Z.of_nat (length items)).
  { unfold targetSize_of. lia. }
  assert (Hall : sampledItems (scan replace (targetSize_of items size)
                   (threshold_of items size) (entries items) (initial seed)) = items).
  { rewrite Hts. apply (scan_takes_all replace _ items) with (f := id) (pre := []);
      [|apply _|done| |done].
    - intros g. apply Qle_bool_iff. rewrite threshold_full by done.
      apply Qle_bool_iff, Hrange.
    - right. intros j. apply not_elem_of_empty. }
  cbn [sample_loop]. rewrite bool_decide_eq_true_2.
  - rewrite bool_decide_eq_false_2 by (rewrite Hall, Hts; lia).
    simpl. by rewrite Hall.
  - simpl. rewrite Hts. destruct items; [done | simpl; lia].
Qed.

(** *** What a returning call returns *)

Lemma getRandomSamples_some fuel items size seed replace r :
  getRandomSamples fuel items size seed replace = Some r ↔
  ∃ s, getRandomSamples_run fuel items size seed replace = Some s ∧ sampledItems s = r.
Proof.
  unfold getRandomSamples.
  destruct (getRandomSamples_run fuel items size seed replace) as [s|]; simpl.
  - split; [intros [= <-]; by exists s | by intros (s' & [= <-] & <-)].
  - split; [done | by intros (s' & ? & _)].
Qed.

Lemma getRandomSamples_run_unique fuel1 fuel2 items size seed replace s1 s2 :
  getRandomSamples_run fuel1 items size seed replace = Some s1 →
  getRandomSamples_run fuel2 items size seed replace = Some s2 →
  s1 = s2.
Proof.
  unfold getRandomSamples_run. intros H1 H2.
  apply (sample_loop_fuel_mono _ (fuel1 `max` fuel2)) in H1; [|lia].
  apply (sample_loop_fuel_mono _ (fuel1 `max` fuel2)) in H2; [|lia].
  congruence.
Qed.

Lemma getRandomSamples_length fuel items size seed replace r :
  getRandomSamples fuel items size seed replace = Some r →
  Z.of_nat (length r) = Z.max (Z.min size (Z.of_nat (length items))) 0.
Proof.
  intros (s & Hrun & <-)%getRandomSamples_some. unfold getRandomSamples_run in Hrun.
  apply sample_loop_length in Hrun; [done | simpl; lia].
Qed.

Lemma getRandomSamples_returns items size seed replace :
  recurrent → ∃ fuel r, getRandomSamples fuel items size seed replace = Some r.
Proof.
  intros Hrec.
  destruct (getRandomSamples_run_returns items size seed replace Hrec) as (fuel & s & Hrun).
  exists fuel, (sampledItems s). apply getRandomSamples_some. by exists s.
Qed.

(** A call for nothing returns at once. *)
Lemma getRandomSamples_nothing fuel items size seed replace :
  Z.min size (Z.of_nat (length items)) ≤ 0 →
  getRandomSamples fuel items size seed replace = Some [].
Proof.
  intros Hts. unfold getRandomSamples, getRandomSamples_run, targetSize_of.
  destruct fuel; simpl; by rewrite bool_decide_eq_false_2 by lia.
Qed.

Lemma getRandomSamples_run_accounted fuel items size seed replace s :
  getRandomSamples_run fuel items size seed replace = Some s →
  accounted replace items s.
Proof.
  intros (k & _ & -> & _)%sample_loop_passes. apply passes_accounted.
Qed.

(** *** The number of passes *)

Lemma sample_loop_done fuel replace targetSize threshold items s :
  ¬ Z.of_nat (length (sampledItems s)) < targetSize →
  sample_loop fuel replace targetSize threshold items s = Some s.
Proof. intros Hge. destruct fuel; simpl; by rewrite bool_decide_eq_false_2. Qed.

(** When the generator is [k] calls away from a number at or below the
    threshold, [k + 1] passes at most make the sample grow: a pass that
    pushes nothing calls the generator at least once. The passes left after
    that are those of the hypothesis [Hlater]. *)
Lemma sample_loop_grows period replace targetSize threshold items k :
  0 ≤ period → targetSize ≤ Z.of_nat (length items) →
  ∀ s fuel,
    hit threshold k (generator s) →
    accounted replace items s →
    Z.of_nat (length (sampledItems s)) < targetSize →
    (∀ s1 fuel1,
       accounted replace items s1 →
       (length (sampledItems s) < length (sampledItems s1))%nat →
       period * Z.max 0 (targetSize - Z.of_nat (length (sampledItems s1))) ≤ Z.of_nat fuel1 →
       ∃ s', sample_loop fuel1 replace targetSize threshold items s1 = Some s') →
    Z.of_nat k + 1 + period * (targetSize - Z.of_nat (length (sampledItems s)) - 1)
      ≤ Z.of_nat fuel →
    ∃ s', sample_loop fuel replace targetSize threshold items s = Some s'.
Proof.
  intros Hperiod Hts. induction (lt_wf k) as [k _ IHk].
  intros s fuel Hk Hacc Hlt Hlater Hfuel.
  destruct fuel as [|fuel]; [nia|].
  cbn [sample_loop]. rewrite bool_decide_eq_true_2 by done.
  pose proof (scan_accounted replace targetSize threshold items (entries items) s
                (entries_lookup items) Hacc) as Hacc1.
  destruct (scan_progress replace targetSize threshold (entries items) s k Hk)
    as [Hgrow|(Hitems & Hidx & m & Hgen & Hm & Hone)].
  - apply Hlater; [done..|]. nia.
  - assert (1 ≤ m)%nat as Hm1.
    { apply Hone. destruct replace.
      - destruct items as [|x items]; [simpl in *; lia|].
        exists 0%nat, x. split; [|done]. unfold entries. simpl. apply elem_of_cons. by left.
      - destruct (fresh_index items s Hacc) as (i & x & Hin & Hfresh); [lia|].
        exists i, x. split; [done|]. simpl. by rewrite bool_decide_eq_false_2. }
    apply (IHk (k - m)%nat); [lia | | done | by rewrite Hitems | | ].
    + unfold hit in *. rewrite Hgen, <- later_add.
      by replace (k - m + m)%nat with k by lia.
    + intros s1 fuel1 Hs1 Hlen. apply Hlater; [done|]. by rewrite <- Hitems.
    + rewrite Hitems. lia.
Qed.

(** With a generator that is recurrent within [period] calls, [period]
    passes for every item still to sample are enough. *)
Lemma sample_loop_within period replace targetSize threshold items :
  recurrent_within (source := source) period → (0 < threshold)%Q →
  targetSize ≤ Z.of_nat (length items) →
  ∀ s fuel,
    accounted replace items s →
    period * Z.max 0 (targetSize - Z.of_nat (length (sampledItems s))) ≤ Z.of_nat fuel →
    ∃ s', sample_loop fuel replace targetSize threshold items s = Some s'.
Proof.
  intros Hrec Hthr Hts s.
  remember (Z.to_nat (targetSize - Z.of_nat (length (sampledItems s)))) as r eqn:Hr.
  revert s Hr. induction (lt_wf r) as [r _ IHr]. intros s Hr fuel Hacc Hfuel.
  destruct (decide (Z.of_nat (length (sampledItems s)) < targetSize)) as [Hlt|Hge];
    [|exists s; by apply sample_loop_done].
  destruct (Hrec threshold (generator s) Hthr) as (k & Hkp & Hk).
  apply (sample_loop_grows period replace targetSize threshold items k);
    [lia | done | done | done | done | | nia].
  intros s1 fuel1 Hs1 Hlen Hfuel1.
  apply (IHr (Z.to_nat (targetSize - Z.of_nat (length (sampledItems s1))))); [lia|done..].
Qed.

(** The number of passes of a call is at most [period] times the size of
    the sample. *)
Lemma getRandomSamples_within period items size seed replace :
  recurrent_within (source := source) period →
  ∃ fuel r,
    Z.of_nat fuel ≤ period * Z.max 0 (Z.min size (Z.of_nat (length items)))
    ∧ getRandomSamples fuel items size seed replace = Some r.
Proof.
  intros Hrec.
  assert (0 < period) as Hperiod.
  { destruct (Hrec 1%Q (randomLcg seed)) as (k & Hk & _); [done | lia]. }
  set (bound := period * Z.max 0 (Z.min size (Z.of_nat (length items)))).
  assert (0 ≤ bound) by (unfold bound; nia).
  assert (∃ s, getRandomSamples_run (Z.to_nat bound) items size seed replace = Some s)
    as [s Hs].
  { unfold getRandomSamples_run.
    destruct (decide (0 < targetSize_of items size)) as [Hpos|Hneg].
    - apply (sample_loop_within period); [done | by apply threshold_positive | | |].
      + unfold targetSize_of. lia.
      + apply initial_accounted.
      + simpl. unfold bound, targetSize_of. rewrite Z2Nat.id by done.
        rewrite Z.sub_0_r. done.
    - eexists. apply sample_loop_done. simpl. lia. }
  exists (Z.to_nat bound), (sampledItems s). split; [lia|].
  apply getRandomSamples_some. by exists s.
Qed.

End SamplerFacts.

Import Chunk.

Section ChunkFacts.

Context {T : Type}.
Implicit Types (array : list T) (result cs : list (list T)).

(** A slice that starts inside the array is the next [size] elements, or
    what is left of the array. *)
Lemma slice_inside array i size :
  0 ≤ i < Z.of_nat (length array) → 0 < size →
  slice array i (i + size) = take (Z.to_nat size) (drop (Z.to_nat i) array).
Proof.
  intros Hi Hsize. unfold slice, relative.
  rewrite !bool_decide_eq_false_2 by lia.
  rewrite (Z.min_l i) by lia.
  destruct (decide (i + size ≤ Z.of_nat (length array))) as [Hfit|Hover].
  - rewrite Z.min_l by lia. f_equal. lia.
  - rewrite Z.min_r by lia.
    rewrite !take_ge; [done | rewrite length_drop; lia..].
Qed.

Lemma chunk_loop_spec fuel array size i result :
  0 < size → 0 ≤ i → Z.of_nat (length array) - i ≤ Z.of_nat fuel →
  ∃ cs, chunk_loop fuel array size i result = Some (result ++ cs)
        ∧ concat cs = drop (Z.to_nat i) array
        ∧ (Z.of_nat (length array) ≤ i → cs = [])
        ∧ (∀ k c, cs !! k = Some c → (S k < length cs)%nat → Z.of_nat (length c) = size)
        ∧ (∀ c, last cs = Some c → 1 ≤ Z.of_nat (length c) ≤ size).
Proof.
  intros Hsize. revert i result.
  assert (Hstop : ∀ fuel i result, 0 ≤ i → Z.of_nat (length array) ≤ i →
    ∃ cs, chunk_loop fuel array size i result = Some (result ++ cs)
          ∧ concat cs = drop (Z.to_nat i) array
          ∧ (Z.of_nat (length array) ≤ i → cs = [])
          ∧ (∀ k c, cs !! k = Some c → (S k < length cs)%nat → Z.of_nat (length c) = size)
          ∧ (∀ c, last cs = Some c → 1 ≤ Z.of_nat (length c) ≤ size)).
  { intros fuel' i result Hi Hge. exists []. split_and!; try done.
    - destruct fuel'; simpl; rewrite bool_decide_eq_false_2 by lia;
        by rewrite (right_id_L [] (++)).
    - simpl. rewrite drop_ge; [done | lia]. }
  induction fuel as [|fuel IH]; intros i result Hi Hfuel.
  - apply Hstop; lia.
  - destruct (decide (i < Z.of_nat (length array))) as [Hlt|Hge];
      [|apply Hstop; lia].
    destruct (IH (i + size) (result ++ [slice array i (i + size)]))
      as (cs & Hrun & Hcat & Hnil & Hfull & Hlast); [lia..|].
    assert (Hlen : Z.of_nat (length (slice array i (i + size)))
                   = Z.min size (Z.of_nat (length array) - i)).
    { rewrite slice_inside, length_take, length_drop by lia. lia. }
    exists (slice array i (i + size) :: cs). split_and!.
    + simpl. rewrite bool_decide_eq_true_2 by done.
      by rewrite Hrun, <- (assoc_L (++)).
    + simpl. rewrite Hcat, slice_inside by lia.
      replace (Z.to_nat (i + size)) with (Z.to_nat i + Z.to_nat size)%nat by lia.
      by rewrite <- drop_drop, take_drop.
    + lia.
    + intros [|k] c Hk Hmore; simpl in *.
      * injection Hk as <-. destruct (decide (Z.of_nat (length array) ≤ i + size)) as [Hend|];
          [|lia].
        rewrite (Hnil Hend) in Hmore. simpl in Hmore. lia.
      * apply (Hfull k); [done | lia].
    + intros c Hc. destruct cs as [|c' cs'].
      * simpl in Hc. injection Hc as <-. lia.
      * apply Hlast. by rewrite last_cons_cons in Hc.
Qed.

End ChunkFacts.

(** *** The generator of d3-random meets both contracts *)

Section D3Facts.

Import D3.

Lemma to_uint32_to_int32 x : to_uint32 (to_int32 x) = x mod 2 ^ 32.
Proof.
  unfold to_uint32, to_int32. rewrite Zminus_mod_idemp_l. f_equal. lia.
Qed.

Lemma to_uint32_next g : to_uint32 (next g).2 = step (to_uint32 g).
Proof.
  unfold next, step. simpl. rewrite to_uint32_to_int32. unfold to_uint32.
  rewrite (Z.add_mod (mul * (g mod 2 ^ 32))), Z.mul_mod_idemp_r by lia.
  by rewrite <- Z.add_mod by lia.
Qed.

Lemma to_uint32_later k g :
  to_uint32 (later k g) = Nat.iter k step (to_uint32 g) mod 2 ^ 32.
Proof.
  induction k as [|k IH].
  - simpl. unfold to_uint32. by rewrite Z.mod_mod by lia.
  - change (later (S k) g) with (next (later k g)).2.
    rewrite to_uint32_next, IH, Nat.iter_succ. unfold step at 1 3.
    rewrite Z.mod_mod by lia.
    rewrite (Z.add_mod (mul * (_ mod 2 ^ 32))), Z.mul_mod_idemp_r by lia.
    by rewrite <- Z.add_mod by lia.
Qed.

Lemma affine_square m u : affine (square m) u = affine m (affine m u).
Proof.
  destruct m as [A C]. unfold affine, square. simpl.
  rewrite (Z.add_mod (A * ((A * u + C) mod 2 ^ 32))), Z.mul_mod_idemp_r by lia.
  rewrite <- Z.add_mod by lia.
  rewrite (Z.add_mod (_ mod _ * u)), Z.mul_mod_idemp_l, Z.mod_mod by lia.
  rewrite <- Z.add_mod by lia. f_equal. lia.
Qed.

Lemma iter_jump j u : Nat.iter (2 ^ j) step u = affine (jump j) u.
Proof.
  revert u. induction j as [|j IH]; intros u; [done|].
  replace (2 ^ S j)%nat with (2 ^ j + 2 ^ j)%nat by (simpl; lia).
  rewrite Nat.iter_add, !IH. simpl. by rewrite affine_square.
Qed.

Lemma flips_all j : (j < 32)%nat → flips j = true.
Proof.
  intros Hj. assert (Hall : forallb flips (seq 0 32) = true) by (vm_compute; reflexivity).
  rewrite forallb_forall in Hall. apply Hall, in_seq. lia.
Qed.

Lemma pow2_divide_32 j : (j ≤ 32)%nat → (2 ^ Z.of_nat j | 2 ^ 32).
Proof.
  intros Hj. exists (2 ^ (32 - Z.of_nat j)).
  rewrite <- Z.pow_add_r by lia. f_equal. lia.
Qed.

Lemma iter_flip j v :
  (j < 32)%nat →
  Nat.iter (2 ^ j) step v mod 2 ^ Z.of_nat (S j) = (v + 2 ^ Z.of_nat j) mod 2 ^ Z.of_nat (S j).
Proof.
  intros Hj. pose proof (flips_all j Hj) as Hf. unfold flips in Hf.
  apply andb_true_iff in Hf as [HA%Z.eqb_eq HC%Z.eqb_eq].
  rewrite iter_jump. unfold affine.
  rewrite Z.mod_mod_divide by (apply pow2_divide_32; lia).
  assert (0 < 2 ^ Z.of_nat (S j)) by (apply Z.pow_pos_nonneg; lia).
  rewrite Z.add_mod, <- Z.mul_mod_idemp_l, HA, HC by lia.
  rewrite Z.mul_1_l, Z.add_mod_idemp_l by lia. done.
Qed.

(** Two numbers that agree modulo [p] agree modulo [2 p], possibly after
    adding [p] to the first. *)
Lemma mod_double p v t :
  0 < p → v mod p = t mod p → v mod (p * 2) ≠ t mod (p * 2) →
  (v + p) mod (p * 2) = t mod (p * 2).
Proof.
  intros Hp Heq Hne.
  rewrite (Z.rem_mul_r v), (Z.rem_mul_r t), Heq in Hne by lia.
  rewrite (Z.rem_mul_r (v + p)), (Z.rem_mul_r t) by lia.
  replace (v + p) with (v + 1 * p) by lia.
  rewrite Z_mod_plus_full, Z.div_add, Heq by lia.
  assert (Hpar : (v / p) mod 2 ≠ (t / p) mod 2) by congruence.
  f_equal. f_equal. revert Hpar. generalize (v / p) (t / p). intros a b Hpar.
  pose proof (Z.mod_pos_bound a 2). pose proof (Z.mod_pos_bound b 2).
  rewrite Z.add_mod by lia. change (1 mod 2) with 1.
  destruct (decide (a mod 2 = 0)) as [Ha|Ha].
  - rewrite Ha. change ((0 + 1) mod 2) with 1. lia.
  - replace (a mod 2) with 1 by lia. change ((1 + 1) mod 2) with 0. lia.
Qed.

(** The generator reaches every residue: it has full period. *)
Lemma step_reaches j u t :
  (j ≤ 32)%nat → ∃ k, Nat.iter k step u mod 2 ^ Z.of_nat j = t mod 2 ^ Z.of_nat j.
Proof.
  induction j as [|j IH]; intros Hj.
  - exists 0%nat. by rewrite !Z.mod_1_r.
  - destruct IH as [k Hk]; [lia|].
    assert (0 < 2 ^ Z.of_nat j) by (apply Z.pow_pos_nonneg; lia).
    assert (Hpow : 2 ^ Z.of_nat (S j) = 2 ^ Z.of_nat j * 2).
    { rewrite Nat2Z.inj_succ, Z.pow_succ_r by lia. lia. }
    destruct (decide (Nat.iter k step u mod 2 ^ Z.of_nat (S j) = t mod 2 ^ Z.of_nat (S j)))
      as [Heq|Hne]; [by exists k|].
    exists (2 ^ j + k)%nat. rewrite Nat.iter_add, iter_flip by lia.
    rewrite Hpow in *. by apply mod_double.
Qed.

Lemma d3_unit_range : unit_range (source := Z).
Proof.
  intros g. apply Qle_bool_iff. unfold draw, uniform, next. simpl.
  apply Qle_shift_div_r; [done|]. unfold Qle, to_uint32; simpl.
  pose proof (Z.mod_pos_bound (to_int32 (mul * g + inc)) (2 ^ 32)). lia.
Qed.

Lemma d3_recurrent : recurrent (source := Z).
Proof.
  intros q g Hq.
  destruct (step_reaches 32 (to_uint32 (next g).2) 0) as [k Hk]; [lia|].
  exists k. apply Qle_bool_iff.
  assert (Hzero : to_uint32 (next (later k g)).2 = 0).
  { change (next (later k g)).2 with (later (S k) g).
    rewrite later_S. change (draw g) with (next g).
    rewrite to_uint32_later. exact Hk. }
  change (draw (later k g)) with (next (later k g)).
  unfold next in *. simpl in *. rewrite Hzero.
  assert (Hq0 : (inject_Z 0 / inject_Z (2 ^ 32) == 0)%Q) by reflexivity.
  rewrite Hq0. by apply Qlt_le_weak.
Qed.

(** Every residue is reached within one period. *)
Lemma step_reaches_within j u t :
  (j ≤ 32)%nat →
  ∃ k, Z.of_nat k < 2 ^ Z.of_nat j
       ∧ Nat.iter k step u mod 2 ^ Z.of_nat j = t mod 2 ^ Z.of_nat j.
Proof.
  induction j as [|j IH]; intros Hj.
  - exists 0%nat. split; [done|]. by rewrite !Z.mod_1_r.
  - destruct IH as (k & Hlt & Hk); [lia|].
    assert (0 < 2 ^ Z.of_nat j) by (apply Z.pow_pos_nonneg; lia).
    assert (Hpow : 2 ^ Z.of_nat (S j) = 2 ^ Z.of_nat j * 2).
    { rewrite Nat2Z.inj_succ, Z.pow_succ_r by lia. lia. }
    destruct (decide (Nat.iter k step u mod 2 ^ Z.of_nat (S j) = t mod 2 ^ Z.of_nat (S j)))
      as [Heq|Hne]; [exists k; split; [lia | done]|].
    exists (2 ^ j + k)%nat. split.
    + rewrite Nat2Z.inj_add, Nat2Z.inj_pow. change (Z.of_nat 2) with 2. lia.
    + rewrite Nat.iter_add, iter_flip by lia.
      rewrite Hpow in *. by apply mod_double.
Qed.

Lemma d3_recurrent_within : recurrent_within (source := Z) (2 ^ 32).
Proof.
  intros q g Hq.
  destruct (step_reaches_within 32 (to_uint32 (next g).2) 0) as (k & Hlt & Hk); [lia|].
  exists k. split; [exact Hlt|]. apply Qle_bool_iff.
  assert (Hzero : to_uint32 (next (later k g)).2 = 0).
  { change (next (later k g)).2 with (later (S k) g).
    rewrite later_S. change (draw g) with (next g).
    rewrite to_uint32_later. exact Hk. }
  change (draw (later k g)) with (next (later k g)).
  unfold next in *. simpl in *. rewrite Hzero.
  assert (Hq0 : (inject_Z 0 / inject_Z (2 ^ 32) == 0)%Q) by reflexivity.
  rewrite Hq0. by apply Qlt_le_weak.
Qed.

End D3Facts.

(** *** The generator as a closure *)

Section ClosureFacts.

Context {T : Type} {source : Type} `{!Uniform source}.
Implicit Types (s : @state T source) (h : gmap nat source).

(** A pass over a store whose cell [a] holds the generator of [s] does what
    the pass on [s] does, and writes to no other cell. *)
Lemma closure_scan a replace targetSize threshold todo s h :
  h !! a = Some (generator s) →
  Closures.scan a replace targetSize threshold todo
    (Closures.Locals (sampledItems s) (sampledIndexes s)) h
  = let s' := scan replace targetSize threshold todo s in
    Some (Closures.Locals (sampledItems s') (sampledIndexes s'),
          <[a := generator s']> h).
Proof.
  revert s h. induction todo as [|[i item] rest IH]; intros s h Ha; simpl.
  - by rewrite insert_id.
  - destruct (replace || negb (bool_decide (i ∈ sampledIndexes s))); [|by apply IH].
    unfold Closures.myRandomUniform. rewrite Ha.
    destruct (draw (generator s)) as [u g].
    destruct (Qle_bool u threshold).
    + rewrite length_app. case_bool_decide as Hstop; [done|].
      pose proof (IH (State (sampledItems s ++ [item]) ({[i]} ∪ sampledIndexes s) g)
                     (<[a := g]> h)) as Hrest.
      simpl in Hrest. rewrite Hrest by apply lookup_insert_eq.
      by rewrite insert_insert_eq.
    + pose proof (IH (State (sampledItems s) (sampledIndexes s) g) (<[a := g]> h))
        as Hrest.
      simpl in Hrest. rewrite Hrest by apply lookup_insert_eq.
      by rewrite insert_insert_eq.
Qed.

Lemma closure_sample_loop fuel a replace targetSize threshold items s h :
  h !! a = Some (generator s) →
  Closures.sample_loop fuel a replace targetSize threshold items
    (Closures.Locals (sampledItems s) (sampledIndexes s)) h
  = (λ s', (Closures.Locals (sampledItems s') (sampledIndexes s'),
            <[a := generator s']> h))
    <$> sample_loop fuel replace targetSize threshold items s.
Proof.
  revert s h. induction fuel as [|fuel IH]; intros s h Ha; simpl.
  - case_bool_decide; [done|]. simpl. by rewrite insert_id.
  - case_bool_decide; [|simpl; by rewrite insert_id].
    rewrite closure_scan by done. cbv zeta. cbv iota beta.
    rewrite IH by apply lookup_insert_eq.
    destruct (sample_loop _ _ _ _ _ _) as [s'|]; simpl; [|done].
    by rewrite insert_insert_eq.
Qed.

(** A call in the store [h] returns what the call on the seed alone
    returns, and leaves [h] with one more cell. *)
Lemma closure_getRandomSamples fuel items size seed replace h :
  Closures.getRandomSamples fuel items size seed replace h
  = (λ s, (sampledItems s, <[fresh (dom h) := generator s]> h))
    <$> getRandomSamples_run fuel items size seed replace.
Proof.
  unfold Closures.getRandomSamples, Closures.randomLcg, getRandomSamples_run.
  rewrite (closure_sample_loop fuel (fresh (dom h)) replace _ _ items (initial seed))
    by apply lookup_insert_eq.
  destruct (sample_loop _ _ _ _ _ _) as [s'|]; simpl; [|done].
  by rewrite insert_insert_eq.
Qed.

End ClosureFacts.

(* ===================================================================== *)
(** ** Main results                                                       *)
(* ===================================================================== *)

Import D3.

(** Two runs on strings of ASCII characters. *)
Example kitten_sitting :
  calculateLevenshteinDistance (String.list_ascii_of_string "kitten")
    (String.list_ascii_of_string "sitting") = Some 3.
Proof. vm_compute. reflexivity. Qed.

Example empty_sitting :
  calculateLevenshteinDistance [] (String.list_ascii_of_string "sitting") = Some 7.
Proof. vm_compute. reflexivity. Qed.

Section EditDistance.

Context {char : Type} `{EqDecision char}.

(** C1. For all strings [a] and [b], [calculateLevenshteinDistance a b]
    returns a natural number [d] such that [d] single-character
    insertions, deletions or substitutions turn [a] into [b] and no shorter
    sequence of such operations does; when [a] is empty [d] is the length
    of [b], when [b] is empty it is the length of [a] (so 0 when both
    are). *)
Theorem levenshtein_minimum_edits (a b : list char) :
  ∃ d : nat,
    calculateLevenshteinDistance a b = Some (Z.of_nat d)
    ∧ edits d a b
    ∧ (∀ k, edits k a b → (d ≤ k)%nat)
    ∧ (a = [] → d = length b)
    ∧ (b = [] → d = length a).
Proof.
  exists (lev a b). split_and!.
  - apply calculateLevenshteinDistance_lev.
  - apply align_edits, lev_align.
  - intros k. apply edits_lev.
  - intros ->. apply lev_nil_l.
  - intros ->. apply lev_nil_r.
Qed.

(** C9. The distances that [calculateLevenshteinDistance] returns satisfy
    the triangle inequality: the distance from [a] to [c] is at most the
    distance from [a] to [b] plus the distance from [b] to [c]. *)
Theorem levenshtein_triangle (a b c : list char) :
  ∃ dab dbc dac : Z,
    calculateLevenshteinDistance a b = Some dab
    ∧ calculateLevenshteinDistance b c = Some dbc
    ∧ calculateLevenshteinDistance a c = Some dac
    ∧ dac ≤ dab + dbc.
Proof.
  exists (Z.of_nat (lev a b)), (Z.of_nat (lev b c)), (Z.of_nat (lev a c)).
  rewrite !calculateLevenshteinDistance_lev. split_and!; [done..|].
  pose proof (lev_triangle a b c). lia.
Qed.

End EditDistance.

Section Chunking.

Context {T : Type}.

(** C10. For a size above 0, [chunk array size] returns chunks whose
    concatenation, in order, is [array]; every chunk but the last has
    exactly [size] elements, the last one has between 1 and [size], and a
    non-empty array gives at least one chunk. *)
Theorem chunk_partitions (array : list T) (size : Z) :
  0 < size →
  ∃ cs, chunk array size = Some (Returns cs)
        ∧ concat cs = array
        ∧ (∀ k c, cs !! k = Some c → (S k < length cs)%nat → Z.of_nat (length c) = size)
        ∧ (∀ c, last cs = Some c → 1 ≤ Z.of_nat (length c) ≤ size)
        ∧ (array ≠ [] → cs ≠ []).
Proof.
  intros Hsize.
  destruct (chunk_loop_spec (length array) array size 0 [] Hsize)
    as (cs & Hrun & Hcat & _ & Hfull & Hlast); [lia..|].
  exists cs. unfold chunk. rewrite bool_decide_eq_false_2 by lia.
  rewrite Hrun. split_and!; try done.
  intros Hne ->. simpl in Hcat. by rewrite drop_0 in Hcat.
Qed.

End Chunking.

Lemma chunk_partitions_witness :
  0 < 2
  ∧ ∃ cs, chunk [1; 2; 3; 4; 5]%nat 2 = Some (Returns cs)
          ∧ concat cs = [1; 2; 3; 4; 5]%nat
          ∧ (∀ k c, cs !! k = Some c → (S k < length cs)%nat → Z.of_nat (length c) = 2)
          ∧ (∀ c, last cs = Some c → 1 ≤ Z.of_nat (length c) ≤ 2)
          ∧ ([1; 2; 3; 4; 5]%nat ≠ [] → cs ≠ []).
Proof.
  split; [lia|]. apply (chunk_partitions [1; 2; 3; 4; 5]%nat 2). lia.
Defined.

Example chunk_five_by_two :
  chunk [1; 2; 3; 4; 5]%nat 2 = Some (Returns [[1; 2]; [3; 4]; [5]]%nat).
Proof. vm_compute. reflexivity. Qed.

Section Sampling.

Context {T : Type} {source : Type} `{!Uniform source}.

(** C2, as amended. With replacement and [0 <= size], a call returns a
    sample of exactly [min size (length items)] elements, whatever the seed;
    the generator is assumed recurrent, which makes the call return. *)
Theorem with_replacement_length (items : list T) (size seed : Z) :
  0 ≤ size → recurrent →
  ∃ fuel r, getRandomSamples fuel items size seed true = Some r
            ∧ Z.of_nat (length r) = Z.min size (Z.of_nat (length items)).
Proof.
  intros Hsize Hrec.
  destruct (getRandomSamples_returns items size seed true Hrec) as (fuel & r & Hrun).
  exists fuel, r. split; [done|].
  apply getRandomSamples_length in Hrun. lia.
Qed.

(** C4. Without replacement and with [0 <= size], a call returns a sample
    of exactly [min size (length items)] elements: some number of passes
    gives such a result (the generator being recurrent), every result of the
    call has that length, and an empty [items] gives the empty sample
    before any pass. *)
Theorem without_replacement_length (items : list T) (size seed : Z) :
  0 ≤ size → recurrent →
  (∃ fuel r, getRandomSamples fuel items size seed false = Some r
             ∧ Z.of_nat (length r) = Z.min size (Z.of_nat (length items)))
  ∧ (∀ fuel r, getRandomSamples fuel items size seed false = Some r →
               Z.of_nat (length r) = Z.min size (Z.of_nat (length items)))
  ∧ (items = [] → ∀ fuel, getRandomSamples fuel items size seed false = Some []).
Proof.
  intros Hsize Hrec.
  assert (Hlen : ∀ fuel r, getRandomSamples fuel items size seed false = Some r →
            Z.of_nat (length r) = Z.min size (Z.of_nat (length items))).
  { intros fuel r Hrun. apply getRandomSamples_length in Hrun. lia. }
  split_and!; [|done|].
  - destruct (getRandomSamples_returns items size seed false Hrec) as (fuel & r & Hrun).
    exists fuel, r. split; [done | by apply (Hlen fuel)].
  - intros -> fuel. apply getRandomSamples_nothing. simpl. lia.
Qed.

(** C6. The sample that a call returns is fixed by the items, the size, the
    seed and the replace flag: there is one sequence [r] that the call
    returns in every store, whatever generators the program has made and
    however far it has run them, so also when the same call has been made
    before. The call leaves every variable that was in the store as it
    was. The generator is assumed recurrent, which makes the call
    return. *)
Theorem getRandomSamples_deterministic (items : list T) (size seed : Z)
  (replace : bool) :
  recurrent (source := source) →
  ∃ r : list T,
    ∀ h : gmap nat source,
      (∃ fuel h' h'',
         Closures.getRandomSamples fuel items size seed replace h = Some (r, h')
         ∧ Closures.getRandomSamples fuel items size seed replace h' = Some (r, h''))
      ∧ (∀ fuel r' h',
           Closures.getRandomSamples fuel items size seed replace h = Some (r', h') →
           r' = r ∧ h ⊆ h').
Proof.
  intros Hrec.
  destruct (getRandomSamples_run_returns items size seed replace Hrec) as (fuel & s & Hrun).
  exists (sampledItems s). intros h. split.
  - exists fuel. eexists. eexists. rewrite !closure_getRandomSamples, Hrun. done.
  - intros fuel' r' h'. rewrite closure_getRandomSamples.
    destruct (getRandomSamples_run fuel' items size seed replace) as [s'|] eqn:Hrun';
      [|done].
    simpl. intros [= <- <-].
    rewrite (getRandomSamples_run_unique _ _ _ _ _ _ _ _ Hrun' Hrun).
    split; [done|]. apply insert_subseteq, not_elem_of_dom, is_fresh.
Qed.

(** C7. Without replacement, for a non-empty [items] and a size of at
    least [length items], the first pass of the [while] loop already takes
    every element: the call returns [items] itself after one pass, and so
    every result of the call is a permutation of [items]. The generator is
    assumed to return numbers of at most 1. *)
Theorem whole_population_in_one_pass (items : list T) (size seed : Z) :
  unit_range → items ≠ [] → Z.of_nat (length items) ≤ size →
  getRandomSamples 1 items size seed false = Some items
  ∧ (∀ fuel r, getRandomSamples fuel items size seed false = Some r → r ≡ₚ items).
Proof.
  intros Hrange Hne Hsize.
  pose proof (getRandomSamples_run_full items size seed false Hrange Hne Hsize) as Hone.
  split; [done|]. intros fuel r Hrun.
  apply getRandomSamples_some in Hrun as (s & Hs & <-).
  apply getRandomSamples_some in Hone as (s1 & Hs1 & <-).
  by rewrite (getRandomSamples_run_unique _ _ _ _ _ _ _ _ Hs Hs1).
Qed.

(** C8, as amended. For a non-empty [items], a size of at least 1 and either
    replace flag, the [while] loop is entered and the call returns, whatever
    the seed; and the number of passes is bounded: with a generator that
    returns a number at or below any positive bound within every [period]
    calls, the call returns after at most [period] passes for every element
    of the sample, that is [period * min size (length items)] passes. *)
Theorem getRandomSamples_terminates (items : list T) (size seed : Z)
  (replace : bool) (period : Z) :
  recurrent_within (source := source) period → items ≠ [] → 1 ≤ size →
  getRandomSamples 0 items size seed replace = None
  ∧ ∃ fuel r,
      Z.of_nat fuel ≤ period * Z.min size (Z.of_nat (length items))
      ∧ getRandomSamples fuel items size seed replace = Some r.
Proof.
  intros Hrec Hne Hsize. split.
  - unfold getRandomSamples, getRandomSamples_run, targetSize_of. simpl.
    rewrite bool_decide_eq_true_2; [done|]. destruct items; [done | simpl; lia].
  - destruct (getRandomSamples_within period items size seed replace Hrec)
      as (fuel & r & Hfuel & Hrun).
    exists fuel, r. split; [|done]. rewrite Z.max_r in Hfuel; [done|].
    destruct items; [done | simpl; lia].
Qed.

(** C3, as amended. For a size of 0 or less, [getRandomSamples] returns the
    empty sample without entering its loop, and [chunk] throws its error. *)
Theorem nonpositive_size {T' : Type} (items : list T) (array : list T')
  (size seed : Z) (replace : bool) (fuel : nat) :
  size ≤ 0 →
  getRandomSamples fuel items size seed replace = Some []
  ∧ chunk array size = Some (Throws "Size must be greater than 0").
Proof.
  intros Hsize. split.
  - apply getRandomSamples_nothing. lia.
  - unfold chunk. by rewrite bool_decide_eq_true_2.
Qed.

End Sampling.


(** *** Concrete runs, with the generator of d3-random *)

Example sample_default_seed :
  getRandomSamples 2 [10; 20; 30]%nat 2 1212 true = Some [20; 10]%nat.
Proof. vm_compute. reflexivity. Qed.

(** Asking for two of one item, with replacement, gives one. *)
Lemma with_replacement_length_is_not_size :
  getRandomSamples 1 [10]%nat 2 1212 true = Some [10]%nat
  ∧ ¬ (∀ (items : list nat) (size seed : Z),
         0 ≤ size →
         ∃ fuel r, getRandomSamples fuel items size seed true = Some r
                   ∧ Z.of_nat (length r) = size).
Proof.
  split; [vm_compute; reflexivity|]. intros Hall.
  destruct (Hall [10]%nat 2 1212) as (fuel & r & Hrun & Hlen); [lia|].
  apply getRandomSamples_length in Hrun. simpl in Hrun. lia.
Qed.

Lemma with_replacement_length_witness :
  0 ≤ 2
  ∧ recurrent (source := Z)
  ∧ ∃ fuel r, getRandomSamples fuel [10; 20; 30]%nat 2 16 true = Some r
              ∧ Z.of_nat (length r) = Z.min 2 (Z.of_nat (length [10; 20; 30]%nat)).
Proof.
  split; [lia|]. split; [exact d3_recurrent|].
  apply (with_replacement_length [10; 20; 30]%nat 2 16); [lia | exact d3_recurrent].
Defined.

(** [chunk] does not return for a size of 0. *)
Lemma chunk_nonpositive_size_throws :
  chunk [1; 2; 3]%nat 0 = Some (Throws "Size must be greater than 0")
  ∧ ¬ (∀ (array : list nat) (size : Z),
         size ≤ 0 → chunk array size = Some (Returns [])).
Proof.
  split; [vm_compute; reflexivity|]. intros Hall.
  assert (Hret : chunk [1; 2; 3]%nat 0 = Some (Returns [])) by (apply Hall; lia).
  vm_compute in Hret. discriminate Hret.
Qed.

Lemma nonpositive_size_witness :
  -1 ≤ 0
  ∧ getRandomSamples 0 [10; 20; 30]%nat (-1) 1212 false = Some []
  ∧ chunk [1; 2; 3]%nat (-1) = Some (Throws "Size must be greater than 0").
Proof.
  split; [lia|].
  apply (nonpositive_size [10; 20; 30]%nat [1; 2; 3]%nat (-1) 1212 false 0). lia.
Defined.

Lemma without_replacement_length_witness :
  0 ≤ 2
  ∧ recurrent (source := Z)
  ∧ (∃ fuel r, getRandomSamples fuel [10; 20; 30]%nat 2 1212 false = Some r
               ∧ Z.of_nat (length r) = Z.min 2 (Z.of_nat (length [10; 20; 30]%nat)))
  ∧ (∀ fuel r, getRandomSamples fuel [10; 20; 30]%nat 2 1212 false = Some r →
               Z.of_nat (length r) = Z.min 2 (Z.of_nat (length [10; 20; 30]%nat)))
  ∧ ([10; 20; 30]%nat = [] →
     ∀ fuel, getRandomSamples fuel [10; 20; 30]%nat 2 1212 false = Some []).
Proof.
  split; [lia|]. split; [exact d3_recurrent|].
  apply (without_replacement_length [10; 20; 30]%nat 2 1212); [lia | exact d3_recurrent].
Defined.

Lemma getRandomSamples_deterministic_witness :
  recurrent (source := Z)
  ∧ ∃ r : list nat,
      ∀ h : gmap nat Z,
        (∃ fuel h' h'',
           Closures.getRandomSamples fuel [10; 20; 30]%nat 2 1212 true h = Some (r, h')
           ∧ Closures.getRandomSamples fuel [10; 20; 30]%nat 2 1212 true h' = Some (r, h''))
        ∧ (∀ fuel r' h',
             Closures.getRandomSamples fuel [10; 20; 30]%nat 2 1212 true h = Some (r', h') →
             r' = r ∧ h ⊆ h').
Proof.
  split; [exact d3_recurrent|].
  apply (getRandomSamples_deterministic [10; 20; 30]%nat 2 1212 true d3_recurrent).
Defined.

Lemma whole_population_in_one_pass_witness :
  unit_range (source := Z)
  ∧ [10; 20; 30]%nat ≠ []
  ∧ Z.of_nat (length [10; 20; 30]%nat) ≤ 3
  ∧ getRandomSamples 1 [10; 20; 30]%nat 3 1212 false = Some [10; 20; 30]%nat
  ∧ (∀ fuel r, getRandomSamples fuel [10; 20; 30]%nat 3 1212 false = Some r →
               r ≡ₚ [10; 20; 30]%nat).
Proof.
  split; [exact d3_unit_range|]. split; [done|]. split; [simpl; lia|].
  apply (whole_population_in_one_pass [10; 20; 30]%nat 3 1212);
    [exact d3_unit_range | done | simpl; lia].
Defined.

(** The number of passes is linear in the number of items: with the
    generator of d3-random no call makes more than [2 ^ 32] passes for
    every item. *)
Lemma passes_linear_in_items :
  (∀ (items : list nat) (size seed : Z) (replace : bool),
     ∃ fuel r, Z.of_nat fuel ≤ 2 ^ 32 * Z.of_nat (length items)
               ∧ getRandomSamples fuel items size seed replace = Some r)
  ∧ ¬ (∀ c : nat, ∃ (items : list nat) (size seed : Z) (replace : bool),
         items ≠ [] ∧ 1 ≤ size
         ∧ getRandomSamples (c * length items) items size seed replace = None).
Proof.
  assert (Hbound : ∀ (items : list nat) (size seed : Z) (replace : bool),
     ∃ fuel r, Z.of_nat fuel ≤ 2 ^ 32 * Z.of_nat (length items)
               ∧ getRandomSamples fuel items size seed replace = Some r).
  { intros items size seed replace.
    destruct (getRandomSamples_within (2 ^ 32) items size seed replace d3_recurrent_within)
      as (fuel & r & Hfuel & Hrun).
    exists fuel, r. split; [lia | done]. }
  split; [exact Hbound|]. intros Hall.
  destruct (Z_of_nat_complete (2 ^ 32)) as [c Hc]; [lia|].
  destruct (Hall c) as (items & size & seed & replace & _ & _ & Hnone).
  destruct (Hbound items size seed replace) as (fuel & r & Hfuel & Hrun).
  apply getRandomSamples_some in Hrun as (s & Hs & _).
  unfold getRandomSamples_run in Hs.
  apply (sample_loop_fuel_mono _ (c * length items)) in Hs; [|lia].
  unfold getRandomSamples, getRandomSamples_run in Hnone. rewrite Hs in Hnone. done.
Qed.

Lemma getRandomSamples_terminates_witness :
  recurrent_within (source := Z) (2 ^ 32)
  ∧ [10; 20; 30]%nat ≠ []
  ∧ 1 ≤ 2
  ∧ getRandomSamples 0 [10; 20; 30]%nat 2 1212 false = None
  ∧ ∃ fuel r,
      Z.of_nat fuel ≤ 2 ^ 32 * Z.min 2 (Z.of_nat (length [10; 20; 30]%nat))
      ∧ getRandomSamples fuel [10; 20; 30]%nat 2 1212 false = Some r.
Proof.
  split; [exact d3_recurrent_within|]. split; [done|]. split; [lia|].
  apply (getRandomSamples_terminates [10; 20; 30]%nat 2 1212 false (2 ^ 32));
    [exact d3_recurrent_within | done | lia].
Defined.

(** Two calls in a row, in a store that holds a generator already: the
    same sample twice, and the old generator as it was. *)
Example sample_twice :
  ('(r1, h1) ← Closures.getRandomSamples 2 [10; 20; 30]%nat 2 1212 true {[0%nat := 7]};
   '(r2, h2) ← Closures.getRandomSamples 2 [10; 20; 30]%nat 2 1212 true h1;
   Some (r1, r2, h2 !! 0%nat))
  = Some ([20; 10]%nat, [20; 10]%nat, Some 7).
Proof. vm_compute. reflexivity. Qed.

(* ===================================================================== *)
(** ** Further results                                                    *)
(* ===================================================================== *)

Import Helpers.

Section SetsFacts.

Context `{Countable A}.

(** X1. [setsAreEqual] answers [true] exactly when the two sets have the
    same members. *)
Theorem setsAreEqual_iff (set1 set2 : gset A) :
  setsAreEqual set1 set2 = true ↔ set1 = set2.
Proof.
  unfold setsAreEqual. rewrite andb_true_iff, bool_decide_eq_true, forallb_forall.
  split.
  - intros [Hsize Hall]. apply set_eq.
    assert (Hsub : set1 ⊆ set2).
    { intros d Hd. apply elem_of_elements, list_elem_of_In, Hall in Hd.
      by apply bool_decide_eq_true in Hd. }
    apply set_equiv. apply set_subseteq_size_equiv; [done | lia].
  - intros ->. split; [done|]. intros d Hd.
    apply bool_decide_eq_true. by apply list_elem_of_In, elem_of_elements in Hd.
Qed.

End SetsFacts.

Section FileNameFacts.

Context {char : Type} `{EqDecision char}.
Implicit Types (s name : list char) (x dot : char).

Lemma lastIndexOf_from_spec i x s :
  0 ≤ i →
  (lastIndexOf_from i x s = -1 ∧ x ∉ s)
  ∨ (∃ k : nat, lastIndexOf_from i x s = i + Z.of_nat k
                ∧ s !! k = Some x ∧ x ∉ drop (S k) s).
Proof.
  revert i. induction s as [|c rest IH]; intros i Hi; simpl.
  - left. split; [done | apply not_elem_of_nil].
  - destruct (IH (i + 1)) as [[Hnone Hnot]|(k & Hk & Hat & Hafter)]; [lia| |].
    + rewrite Hnone. rewrite bool_decide_eq_false_2 by lia.
      destruct (decide (c = x)) as [->|Hne].
      * right. exists 0%nat. split_and!; [lia | done | by rewrite drop_0].
      * left. split; [done|]. by intros [?|?]%elem_of_cons.
    + rewrite Hk. rewrite bool_decide_eq_true_2 by lia.
      right. exists (S k). split_and!; [lia | done | done].
Qed.

Lemma slice_prefix s (k : nat) :
  (k ≤ length s)%nat → slice s 0 (Z.of_nat k) = take k s.
Proof.
  intros Hk. unfold slice, relative. rewrite !bool_decide_eq_false_2 by lia.
  rewrite Z.min_l, Z.min_l by lia. simpl. rewrite drop_0. f_equal. lia.
Qed.

Lemma slice_suffix s (k : nat) :
  (k ≤ length s)%nat → slice s (Z.of_nat k) (Z.of_nat (length s)) = drop k s.
Proof.
  intros Hk. unfold slice, relative. rewrite !bool_decide_eq_false_2 by lia.
  rewrite Z.min_l, Z.min_l by lia. rewrite Nat2Z.id.
  apply take_ge. rewrite length_drop. lia.
Qed.

(** X2. When the name holds a dot, [splitFileName] cuts it at its last dot:
    the two parts, with a dot between them, give the name back, and the
    extension holds no dot. *)
Theorem splitFileName_with_dot dot name :
  dot ∈ name →
  (splitFileName dot name).1 ++ dot :: (splitFileName dot name).2 = name
  ∧ dot ∉ (splitFileName dot name).2.
Proof.
  intros Hin. unfold splitFileName, lastIndexOf. simpl.
  destruct (lastIndexOf_from_spec 0 dot name) as [[_ Hnot]|(k & -> & Hat & Hafter)];
    [lia | done |].
  pose proof (lookup_lt_Some _ _ _ Hat) as Hlt.
  rewrite Z.add_0_l, slice_prefix by lia.
  replace (Z.of_nat k + 1) with (Z.of_nat (S k)) by lia.
  rewrite slice_suffix by lia. split; [|done].
  rewrite <- (take_drop_middle name k dot Hat) at 3. done.
Qed.

(** X3. When the name holds no dot, the search gives [-1]: the extension is
    the whole name, and the value is the name without its last character. *)
Theorem splitFileName_without_dot dot name :
  dot ∉ name →
  splitFileName dot name = (take (length name - 1) name, name).
Proof.
  intros Hnot. unfold splitFileName, lastIndexOf.
  destruct (lastIndexOf_from_spec 0 dot name) as [[-> _]|(k & _ & Hat & _)]; [lia| |].
  - f_equal.
    + unfold slice, relative. rewrite (bool_decide_eq_false_2 (0 < 0)) by lia.
      rewrite (bool_decide_eq_true_2 (-1 < 0)) by lia. rewrite Z.min_l by lia.
      simpl (Z.to_nat 0). rewrite drop_0. f_equal. lia.
    + change (-1 + 1) with (Z.of_nat 0). rewrite slice_suffix by lia. apply drop_0.
  - exfalso. apply Hnot. by eapply list_elem_of_lookup_2.
Qed.

End FileNameFacts.

Lemma splitFileName_with_dot_witness :
  "."%char ∈ String.list_ascii_of_string "archive.tar.gz"
  ∧ ((splitFileName "."%char (String.list_ascii_of_string "archive.tar.gz")).1
       ++ "."%char
          :: (splitFileName "."%char (String.list_ascii_of_string "archive.tar.gz")).2)
    = String.list_ascii_of_string "archive.tar.gz"
  ∧ "."%char ∉ (splitFileName "."%char (String.list_ascii_of_string "archive.tar.gz")).2.
Proof.
  assert (Hin : "."%char ∈ String.list_ascii_of_string "archive.tar.gz").
  { apply list_elem_of_In. vm_compute. tauto. }
  split; [exact Hin|].
  apply (splitFileName_with_dot "."%char (String.list_ascii_of_string "archive.tar.gz") Hin).
Defined.

Lemma splitFileName_without_dot_witness :
  ("."%char ∉ String.list_ascii_of_string "README")
  ∧ splitFileName "."%char (String.list_ascii_of_string "README")
    = (take (length (String.list_ascii_of_string "README") - 1)
         (String.list_ascii_of_string "README"),
       String.list_ascii_of_string "README").
Proof.
  assert (Hnot : "."%char ∉ String.list_ascii_of_string "README").
  { intros Hin%list_elem_of_In. vm_compute in Hin. intuition discriminate. }
  split; [exact Hnot|].
  apply (splitFileName_without_dot "."%char (String.list_ascii_of_string "README") Hnot).
Defined.

(** *** Colours *)

Lemma digits16_small fuel n acc :
  n < 16 → digits16 fuel n acc = String (hexDigit (n mod 16)) acc.
Proof. intros Hn. destruct fuel; simpl; [done|]. by rewrite bool_decide_eq_true_2. Qed.

(** A channel value is written with the two digits of its quotient and
    remainder by 16. *)
Lemma numToHex_byte n :
  0 ≤ n ≤ 255 →
  numToHex n = String (hexDigit (n / 16)) (String (hexDigit (n mod 16)) "").
Proof.
  intros Hn. unfold numToHex, toString16.
  rewrite Z.abs_eq, (bool_decide_eq_false_2 (n < 0)) by lia.
  destruct (decide (n < 16)) as [Hsmall|Hbig].
  - rewrite digits16_small by done. simpl.
    rewrite Z.div_small by lia. done.
  - assert (4 ≤ Z.log2 n) by (apply (Z.log2_le_mono 16); lia).
    destruct (Z.to_nat (Z.log2 n)) as [|fuel] eqn:Hfuel; [lia|].
    cbn [digits16]. rewrite (bool_decide_eq_false_2 (n < 16)) by done.
    assert (n / 16 < 16) by (apply Z.div_lt_upper_bound; lia).
    assert (0 ≤ n / 16) by (apply Z.div_pos; lia).
    rewrite digits16_small by done. rewrite (Z.mod_small (n / 16)) by lia. done.
Qed.

Lemma hexValue_hexDigit d : 0 ≤ d < 16 → hexValue (hexDigit d) = d.
Proof.
  intros Hd.
  assert (Hall : forallb (λ d, hexValue (hexDigit d) =? d) (map Z.of_nat (seq 0 16)) = true)
    by (vm_compute; reflexivity).
  rewrite forallb_forall in Hall. apply Z.eqb_eq, Hall.
  apply in_map_iff. exists (Z.to_nat d). split; [lia|]. apply in_seq. lia.
Qed.

(** X4. For channels between 0 and 255, [rgbToHex] writes ['#'] and then
    the two hexadecimal digits of each channel, seven characters in all. *)
Theorem rgbToHex_format (r g b : Z) :
  0 ≤ r ≤ 255 → 0 ≤ g ≤ 255 → 0 ≤ b ≤ 255 →
  rgbToHex r g b =
    String "#" (String (hexDigit (r / 16)) (String (hexDigit (r mod 16))
               (String (hexDigit (g / 16)) (String (hexDigit (g mod 16))
               (String (hexDigit (b / 16)) (String (hexDigit (b mod 16)) ""))))))
  ∧ String.length (rgbToHex r g b) = 7%nat.
Proof.
  intros Hr Hg Hb. unfold rgbToHex.
  rewrite !numToHex_byte by done. done.
Qed.

(** X5. On channels between 0 and 255 [rgbToHex] loses nothing: two
    colours with the same string are the same colour. *)
Theorem rgbToHex_injective (r g b r' g' b' : Z) :
  0 ≤ r ≤ 255 → 0 ≤ g ≤ 255 → 0 ≤ b ≤ 255 →
  0 ≤ r' ≤ 255 → 0 ≤ g' ≤ 255 → 0 ≤ b' ≤ 255 →
  rgbToHex r g b = rgbToHex r' g' b' →
  r = r' ∧ g = g' ∧ b = b'.
Proof.
  intros Hr Hg Hb Hr' Hg' Hb'. unfold rgbToHex.
  rewrite !numToHex_byte by done. intros [= H1 H2 H3 H4 H5 H6].
  assert (Hbyte : ∀ n n', 0 ≤ n ≤ 255 → 0 ≤ n' ≤ 255 →
            hexDigit (n / 16) = hexDigit (n' / 16) →
            hexDigit (n mod 16) = hexDigit (n' mod 16) → n = n').
  { intros n n' Hn Hn' Hhi Hlo.
    apply (f_equal hexValue) in Hhi, Hlo.
    pose proof (Z.mod_pos_bound n 16). pose proof (Z.mod_pos_bound n' 16).
    assert (0 ≤ n / 16 < 16) by (split; [apply Z.div_pos | apply Z.div_lt_upper_bound]; lia).
    assert (0 ≤ n' / 16 < 16) by (split; [apply Z.div_pos | apply Z.div_lt_upper_bound]; lia).
    rewrite !hexValue_hexDigit in Hhi, Hlo by lia.
    rewrite (Z.div_mod n 16), (Z.div_mod n' 16) by lia. lia. }
  split_and!; by apply Hbyte.
Qed.

Lemma rgbToHex_format_witness :
  0 ≤ 0 ≤ 255 ∧ 0 ≤ 128 ≤ 255 ∧ 0 ≤ 255 ≤ 255
  ∧ rgbToHex 0 128 255 =
      String "#" (String (hexDigit (0 / 16)) (String (hexDigit (0 mod 16))
                 (String (hexDigit (128 / 16)) (String (hexDigit (128 mod 16))
                 (String (hexDigit (255 / 16)) (String (hexDigit (255 mod 16)) ""))))))
  ∧ String.length (rgbToHex 0 128 255) = 7%nat.
Proof.
  split; [lia|]. split; [lia|]. split; [lia|].
  apply (rgbToHex_format 0 128 255); lia.
Defined.

Lemma rgbToHex_injective_witness :
  0 ≤ 0 ≤ 255 ∧ 0 ≤ 128 ≤ 255 ∧ 0 ≤ 255 ≤ 255
  ∧ rgbToHex 0 128 255 = rgbToHex 0 128 255
  ∧ 0 = 0 ∧ 128 = 128 ∧ 255 = 255.
Proof.
  split; [lia|]. split; [lia|]. split; [lia|]. split; [reflexivity|].
  apply (rgbToHex_injective 0 128 255 0 128 255); (lia || reflexivity).
Defined.

Example rgbToHex_orange : rgbToHex 255 165 0 = "#ffa500".
Proof. vm_compute. reflexivity. Qed.

(** *** Rectangles *)

Lemma round_double_exact z : Z.abs z ≤ 2 ^ 53 → round_double z = z.
Proof.
  intros Hz. unfold round_double. cbv zeta.
  destruct (Z.abs z <? 2 ^ 53) eqn:Hlt; [done|].
  apply Z.ltb_ge in Hlt.
  assert (Z.abs z = 2 ^ 53) as Ha by lia. rewrite Ha.
  destruct (Z.abs_spec z) as [[_ Hz']|[_ Hz']].
  - rewrite Hz' in Ha. subst z. vm_compute. reflexivity.
  - assert (z = - 2 ^ 53) as -> by lia. vm_compute. reflexivity.
Qed.

Lemma double_add_exact a b :
  Z.abs a ≤ 2 ^ 52 → Z.abs b ≤ 2 ^ 52 → double_add a b = a + b.
Proof. intros Ha Hb. apply round_double_exact. lia. Qed.

(** From [2 ^ 53] on the sum is rounded: a rectangle one unit wide at
    [x = 2 ^ 53] has [x + width = x], and does not intersect itself. *)
Example rectsIntersect_rounded :
  rectsIntersect {| x := 2 ^ 53; y := 0; width := 1; height := 1 |}
                 {| x := 2 ^ 53; y := 0; width := 1; height := 1 |} = false.
Proof. vm_compute. reflexivity. Qed.

(** X6. [rectsIntersect] does not depend on the order of its arguments. *)
Theorem rectsIntersect_comm (rect1 rect2 : Rect) :
  rectsIntersect rect1 rect2 = rectsIntersect rect2 rect1.
Proof.
  unfold rectsIntersect. cbv zeta.
  generalize (double_add (x rect1) (width rect1))
             (double_add (x rect2) (width rect2))
             (double_add (y rect1) (height rect1))
             (double_add (y rect2) (height rect2)).
  intros right1 right2 bottom1 bottom2.
  repeat case_bool_decide; simpl; try done; lia.
Qed.

(** X7. Two rectangles of positive width and height, with coordinates and
    sizes that are integers of magnitude at most [2 ^ 52], intersect,
    according to [rectsIntersect], exactly when some unit square lies in
    both; so rectangles that only touch along an edge do not intersect. *)
Theorem rectsIntersect_iff_shared_pixel (rect1 rect2 : Rect) :
  in_doubles rect1 → in_doubles rect2 →
  0 < width rect1 → 0 < height rect1 → 0 < width rect2 → 0 < height rect2 →
  rectsIntersect rect1 rect2 = true
  ↔ ∃ px py, has_pixel rect1 px py ∧ has_pixel rect2 px py.
Proof.
  intros (Hx1 & Hy1 & Hwd1 & Hht1) (Hx2 & Hy2 & Hwd2 & Hht2) Hw1 Hh1 Hw2 Hh2.
  unfold rectsIntersect, has_pixel. cbv zeta.
  rewrite !double_add_exact by done.
  rewrite !andb_true_iff, !bool_decide_eq_true. split.
  - intros [[[Hl1 Hl2] Hb1] Hb2].
    exists (Z.max (x rect1) (x rect2)), (Z.max (y rect1) (y rect2)). lia.
  - intros (px & py & H1 & H2). lia.
Qed.

Lemma rectsIntersect_iff_shared_pixel_witness :
  in_doubles {| x := 0; y := 0; width := 4; height := 3 |}
  ∧ in_doubles {| x := 3; y := 2; width := 2; height := 2 |}
  ∧ 0 < 4 ∧ 0 < 3 ∧ 0 < 2 ∧ 0 < 2
  ∧ (rectsIntersect {| x := 0; y := 0; width := 4; height := 3 |}
                    {| x := 3; y := 2; width := 2; height := 2 |} = true
     ↔ ∃ px py, has_pixel {| x := 0; y := 0; width := 4; height := 3 |} px py
                ∧ has_pixel {| x := 3; y := 2; width := 2; height := 2 |} px py).
Proof.
  assert (He1 : in_doubles {| x := 0; y := 0; width := 4; height := 3 |})
    by (unfold in_doubles; simpl; lia).
  assert (He2 : in_doubles {| x := 3; y := 2; width := 2; height := 2 |})
    by (unfold in_doubles; simpl; lia).
  split; [exact He1|]. split; [exact He2|].
  split; [lia|]. split; [lia|]. split; [lia|]. split; [lia|].
  apply (rectsIntersect_iff_shared_pixel
           {| x := 0; y := 0; width := 4; height := 3 |}
           {| x := 3; y := 2; width := 2; height := 2 |} He1 He2); simpl; lia.
Defined.

(** *** Splitting *)

Import Streams.

Section SplitFacts.

Context {char : Type} `{EqDecision char}.
Implicit Types (sep s a b part : list char) (parts : list (list char)).

Lemma starts_with_prefix sep s : starts_with sep s = true ↔ sep `prefix_of` s.
Proof.
  revert s. induction sep as [|x sep IH]; intros s; simpl.
  - split; [intros _; apply prefix_nil | done].
  - destruct s as [|c s].
    + split; [done | intros Hp; by apply prefix_nil_inv in Hp].
    + rewrite andb_true_iff, bool_decide_eq_true, IH. split.
      * intros [-> Hp]. by apply prefix_cons.
      * intros Hp. split; [by apply prefix_cons_inv_1 in Hp | by apply prefix_cons_inv_2 in Hp].
Qed.

(** The part under construction only grows at its end. *)
Lemma split_go_part sep skip part s :
  ∃ hd tl, split_go sep skip [] s = hd :: tl
           ∧ split_go sep skip part s = (part ++ hd) :: tl.
Proof.
  revert skip part. induction s as [|c rest IH]; intros skip part; simpl.
  - exists [], []. by rewrite (right_id_L [] (++)).
  - destruct skip as [|skip]; [|apply IH].
    destruct (starts_with sep (c :: rest)).
    + exists [], (split_go sep (length sep - 1) [] rest). by rewrite (right_id_L [] (++)).
    + destruct (IH 0%nat [c]) as (hd & tl & Hnil & Hc).
      destruct (IH 0%nat (part ++ [c])) as (hd' & tl' & Hnil' & Hpart).
      rewrite Hnil in Hnil'. injection Hnil' as <- <-.
      exists (c :: hd), tl. split; [done|].
      by rewrite Hpart, <- (assoc_L (++)).
Qed.

Lemma split_go_skip sep skip part s :
  (skip ≤ length s)%nat →
  split_go sep skip part s = split_go sep 0 part (drop skip s).
Proof.
  revert s. induction skip as [|skip IH]; intros s Hlen; [by rewrite drop_0|].
  destruct s as [|c rest]; simpl in *; [lia|]. apply IH. lia.
Qed.

(** The three cases of a split, for a non-empty separator. *)
Lemma split_nil sep : sep ≠ [] → split sep [] = [[]].
Proof. by destruct sep. Qed.

Lemma split_match sep s :
  sep ≠ [] → s ≠ [] → sep `prefix_of` s →
  split sep s = [] :: split sep (drop (length sep) s).
Proof.
  intros Hsep Hs Hp. destruct sep as [|x sep]; [done|].
  destruct s as [|c rest]; [done|]. unfold split. cbn [split_go].
  rewrite (proj2 (starts_with_prefix _ _) Hp). f_equal.
  apply prefix_length in Hp. simpl in *.
  rewrite split_go_skip by lia. f_equal. by rewrite Nat.sub_0_r.
Qed.

Lemma split_no_match sep c rest :
  sep ≠ [] → ¬ sep `prefix_of` (c :: rest) →
  ∃ hd tl, split sep rest = hd :: tl ∧ split sep (c :: rest) = (c :: hd) :: tl.
Proof.
  intros Hsep Hp. destruct sep as [|x sep]; [done|]. unfold split. cbn [split_go].
  destruct (starts_with (x :: sep) (c :: rest)) eqn:Hs.
  { by apply starts_with_prefix in Hs. }
  destruct (split_go_part (x :: sep) 0 [c] rest) as (hd & tl & Hnil & Hc).
  exists hd, tl. split; [done|]. exact Hc.
Qed.

Lemma split_nonempty sep s : sep ≠ [] → split sep s ≠ [].
Proof.
  intros Hsep. destruct sep as [|x sep]; [done|]. unfold split.
  destruct (split_go_part (x :: sep) 0 [] s) as (hd & tl & -> & _). done.
Qed.

Lemma split_snoc sep s : sep ≠ [] → ∃ parts rest, split sep s = parts ++ [rest].
Proof.
  intros Hsep. destruct (split sep s) as [|p ps] eqn:Hsplit using rev_ind.
  - by apply split_nonempty in Hsplit.
  - by exists ps, p.
Qed.

(** A string that is shorter than the separator is one part. *)
Lemma split_short sep s : (length s < length sep)%nat → split sep s = [s].
Proof.
  intros Hlen. assert (Hsep : sep ≠ []) by (intros ->; simpl in Hlen; lia).
  induction s as [|c rest IH]; [by apply split_nil|].
  destruct (split_no_match sep c rest Hsep) as (hd & tl & Hrest & ->).
  - intros Hp%prefix_length. lia.
  - rewrite IH in Hrest by (simpl in Hlen; lia). by injection Hrest as <- <-.
Qed.

Lemma join_cons sep part parts :
  parts ≠ [] → join sep (part :: parts) = part ++ sep ++ join sep parts.
Proof. by destruct parts. Qed.

(** Joining the parts of a split with the separator gives the string back. *)
Lemma join_split sep s : sep ≠ [] → join sep (split sep s) = s.
Proof.
  intros Hsep. remember (length s) as n eqn:Hn. revert s Hn.
  induction (lt_wf n) as [n _ IH]; intros s ->.
  destruct s as [|c rest]; [by rewrite split_nil|].
  destruct (decide (sep `prefix_of` (c :: rest))) as [Hp|Hp].
  - rewrite split_match by done.
    rewrite join_cons by (by apply split_nonempty).
    rewrite (IH (length (drop (length sep) (c :: rest)))); [| |done].
    + simpl. destruct Hp as [t ->]. by rewrite drop_app_length.
    + rewrite length_drop. destruct sep; [done|]. simpl. lia.
  - destruct (split_no_match sep c rest Hsep Hp) as (hd & tl & Hrest & ->).
    pose proof (IH (length rest) ltac:(simpl; lia) rest eq_refl) as Hjoin.
    rewrite Hrest in Hjoin. destruct tl as [|p tl]; [by simplify_eq/=|].
    rewrite join_cons in * by done. simpl. by rewrite <- Hjoin.
Qed.

(** Splitting [a ++ b] can start from the split of [a]: only its last part
    has to be read again, in front of [b]. *)
Lemma split_app sep a b parts rest :
  sep ≠ [] → split sep a = parts ++ [rest] →
  split sep (a ++ b) = parts ++ split sep (rest ++ b).
Proof.
  intros Hsep. remember (length a) as n eqn:Hn. revert a parts rest Hn.
  induction (lt_wf n) as [n _ IH]; intros a parts rest -> Ha.
  destruct a as [|c a'].
  { rewrite split_nil in Ha by done.
    apply (app_inj_tail [] parts) in Ha as [<- <-]. done. }
  destruct (decide (sep `prefix_of` (c :: a'))) as [Hp|Hp].
  - rewrite split_match in Ha by done.
    destruct (split_snoc sep (drop (length sep) (c :: a')) Hsep) as (ps & r & Hsplit).
    rewrite Hsplit in Ha. change ([] :: ps ++ [r]) with (([] :: ps) ++ [r]) in Ha.
    apply app_inj_tail in Ha as [<- <-].
    rewrite split_match; [|done|done|by apply prefix_app_r].
    rewrite drop_app_le by (by apply prefix_length).
    simpl. f_equal. eapply IH; [|done|done].
    rewrite length_drop. destruct sep; [done|]. simpl. lia.
  - destruct (split_no_match sep c a' Hsep Hp) as (hd & tl & Hrest & Hsplit).
    rewrite Hsplit in Ha.
    destruct (decide (sep `prefix_of` ((c :: a') ++ b))) as [Hpb|Hpb].
    + assert (length (c :: a') < length sep)%nat as Hshort.
      { destruct Hpb as [t Ht]. destruct (decide (length sep ≤ length (c :: a'))%nat); [|lia].
        exfalso. apply Hp. exists (drop (length sep) (c :: a')).
        apply (f_equal (take (length sep))) in Ht.
        rewrite take_app_le, take_app_length in Ht by done.
        transitivity (take (length sep) (c :: a') ++ drop (length sep) (c :: a'));
          [by rewrite take_drop | by rewrite Ht]. }
      rewrite (split_short sep (c :: a')) in Hsplit by done. rewrite <- Hsplit in Ha.
      apply (app_inj_tail [] parts) in Ha as [<- <-]. done.
    + rewrite <- app_comm_cons in *.
      destruct (split_no_match sep c (a' ++ b) Hsep Hpb) as (hd2 & tl2 & Hrest2 & Hsplit2).
      destruct tl as [|p tl _] using rev_ind.
      * assert (hd = a') as ->.
        { pose proof (join_split sep a' Hsep) as Hj. by rewrite Hrest in Hj. }
        by apply (app_inj_tail [] parts) in Ha as [<- <-].
      * change ((c :: hd) :: tl ++ [p]) with (((c :: hd) :: tl) ++ [p]) in Ha.
        apply app_inj_tail in Ha as [<- <-].
        rewrite (IH (length a') ltac:(simpl; lia) a' (hd :: tl) p eq_refl Hrest) in Hrest2.
        simpl in Hrest2. injection Hrest2 as <- <-. by rewrite Hsplit2.
Qed.

End SplitFacts.

Section StreamFacts.

Context {char : Type} `{EqDecision char}.
Implicit Types (sep s text chunk part : list char) (parts chunks : list (list char)).

Lemma slice_all_but_last {T : Type} (l : list T) (x : T) :
  slice (l ++ [x]) 0 (-1) = l.
Proof.
  unfold slice, relative. rewrite (bool_decide_eq_false_2 (0 < 0)) by lia.
  rewrite (bool_decide_eq_true_2 (-1 < 0)) by lia.
  rewrite length_app. simpl. rewrite Z.min_l by lia. simpl (Z.to_nat 0).
  rewrite drop_0. replace (Z.to_nat _) with (length l) by lia.
  by rewrite take_app_length.
Qed.

(** The first part of a split is a prefix of the string. *)
Lemma split_first_prefix sep s hd tl :
  sep ≠ [] → split sep s = hd :: tl → hd `prefix_of` s.
Proof.
  intros Hsep Hsplit. pose proof (join_split sep s Hsep) as Hjoin.
  rewrite Hsplit in Hjoin. destruct tl as [|p tl]; simpl in Hjoin.
  - by subst.
  - rewrite <- Hjoin. by apply prefix_app_r.
Qed.

(** No part of a split holds the separator. *)
Lemma split_free sep s part l1 l2 :
  sep ≠ [] → part ∈ split sep s → part ≠ l1 ++ sep ++ l2.
Proof.
  intros Hsep. remember (length s) as n eqn:Hn. revert s part l1 Hn.
  induction (lt_wf n) as [n _ IH]; intros s part l1 -> Hin.
  destruct s as [|c rest].
  { rewrite split_nil in Hin by done. apply list_elem_of_singleton in Hin as ->.
    intros Heq. symmetry in Heq. apply app_eq_nil in Heq as [_ Heq].
    by apply app_eq_nil in Heq as [? _]. }
  destruct (decide (sep `prefix_of` (c :: rest))) as [Hp|Hp].
  - rewrite split_match in Hin by done. apply elem_of_cons in Hin as [->|Hin].
    + intros Heq. symmetry in Heq. apply app_eq_nil in Heq as [_ Heq].
      by apply app_eq_nil in Heq as [? _].
    + eapply IH; [|done|done]. rewrite length_drop. destruct sep; [done|]. simpl. lia.
  - destruct (split_no_match sep c rest Hsep Hp) as (hd & tl & Hrest & Hsplit).
    rewrite Hsplit in Hin.
    assert (Hrec : ∀ p l, p ∈ split sep rest → p ≠ l ++ sep ++ l2).
    { intros p l Hp'. by eapply (IH (length rest)); [simpl; lia| |]. }
    apply elem_of_cons in Hin as [->|Hin].
    + destruct l1 as [|c' l1]; simpl.
      * intros Heq. apply Hp. trans (c :: hd).
        -- rewrite Heq. by apply prefix_app_r.
        -- apply prefix_cons, (split_first_prefix sep rest hd tl Hsep Hrest).
      * intros [= <- Heq]. apply (Hrec hd l1); [|done]. rewrite Hrest. by left.
    + apply Hrec. rewrite Hrest. by right.
Qed.

(** What [transform] keeps: the parts enqueued so far and the buffer are
    the split of the text written so far. *)
Lemma transform_split sep text chunk st :
  sep ≠ [] → split sep text = enqueued st ++ [buffer st] →
  ∃ st', transform sep chunk st = Some st'
         ∧ split sep (text ++ chunk) = enqueued st' ++ [buffer st'].
Proof.
  intros Hsep Hinv. unfold transform.
  destruct (split_snoc sep (buffer st ++ chunk) Hsep) as (parts & rest & Hsplit).
  rewrite Hsplit, last_snoc, slice_all_but_last. simpl.
  eexists. split; [done|]. simpl.
  by rewrite (split_app sep text chunk _ _ Hsep Hinv), Hsplit, (assoc_L (++)).
Qed.

Lemma feed_split sep text chunks st :
  sep ≠ [] → split sep text = enqueued st ++ [buffer st] →
  ∃ st', feed sep chunks st = Some st'
         ∧ split sep (text ++ concat chunks) = enqueued st' ++ [buffer st'].
Proof.
  intros Hsep. revert text st. induction chunks as [|chunk chunks IH]; intros text st Hinv.
  - exists st. simpl. by rewrite (right_id_L [] (++)).
  - destruct (transform_split sep text chunk st Hsep Hinv) as (st1 & Hstep & Hinv1).
    destruct (IH (text ++ chunk) st1 Hinv1) as (st2 & Hfeed & Hinv2).
    exists st2. simpl. rewrite Hstep. simpl. split; [done|].
    by rewrite (assoc_L (++)).
Qed.

(** X8. With a non-empty separator, what the stream of
    [splitStreamTransform] enqueues depends only on the concatenation of the
    chunks written to it, not on where they are cut: it is the split of the
    whole text, without its last part when that part is empty. *)
Theorem splitStream_is_split sep chunks :
  sep ≠ [] →
  ∃ parts rest,
    split sep (concat chunks) = parts ++ [rest]
    ∧ splitStream sep chunks
      = Some (if decide (rest = []) then parts else parts ++ [rest]).
Proof.
  intros Hsep.
  destruct (feed_split sep [] chunks (Stream [] []) Hsep) as (st & Hfeed & Hinv).
  { by rewrite split_nil. }
  exists (enqueued st), (buffer st). split; [done|].
  unfold splitStream. rewrite Hfeed. simpl. unfold flush.
  destruct (decide (buffer st = [])) as [Hb|Hb].
  - by rewrite bool_decide_eq_false_2 by (by intros ?).
  - by rewrite bool_decide_eq_true_2.
Qed.

(** X9. With a non-empty separator, the stream loses nothing and never
    lets the separator through: after any chunks, the parts enqueued and
    the buffer, joined by the separator, are the text written so far, and
    none of them holds the separator. *)
Theorem feed_lossless sep chunks :
  sep ≠ [] →
  ∃ st, feed sep chunks (Stream [] []) = Some st
        ∧ join sep (enqueued st ++ [buffer st]) = concat chunks
        ∧ ∀ part l1 l2, part ∈ enqueued st ++ [buffer st] → part ≠ l1 ++ sep ++ l2.
Proof.
  intros Hsep.
  destruct (feed_split sep [] chunks (Stream [] []) Hsep) as (st & Hfeed & Hinv).
  { by rewrite split_nil. }
  exists st. simpl in Hinv. split_and!; [done| |].
  - rewrite <- Hinv. by apply join_split.
  - intros part l1 l2 Hin. rewrite <- Hinv in Hin. by eapply split_free.
Qed.

End StreamFacts.

Lemma splitStream_is_split_witness :
  String.list_ascii_of_string "," ≠ []
  ∧ ∃ parts rest,
      split (String.list_ascii_of_string ",")
        (concat [String.list_ascii_of_string "a,b"; String.list_ascii_of_string "c,"])
      = parts ++ [rest]
      ∧ splitStream (String.list_ascii_of_string ",")
          [String.list_ascii_of_string "a,b"; String.list_ascii_of_string "c,"]
        = Some (if decide (rest = []) then parts else parts ++ [rest]).
Proof.
  split; [done|].
  apply (splitStream_is_split (String.list_ascii_of_string ",")
           [String.list_ascii_of_string "a,b"; String.list_ascii_of_string "c,"]).
  done.
Defined.

Example splitStream_lines :
  splitStream (String.list_ascii_of_string ",")
    [String.list_ascii_of_string "a,b"; String.list_ascii_of_string "c,"]
  = Some [String.list_ascii_of_string "a"; String.list_ascii_of_string "bc"].
Proof. vm_compute. reflexivity. Qed.

Lemma feed_lossless_witness :
  String.list_ascii_of_string "," ≠ []
  ∧ ∃ st, feed (String.list_ascii_of_string ",")
            [String.list_ascii_of_string "a,b"; String.list_ascii_of_string "c,"]
            (Stream [] []) = Some st
          ∧ join (String.list_ascii_of_string ",") (enqueued st ++ [buffer st])
            = concat [String.list_ascii_of_string "a,b"; String.list_ascii_of_string "c,"]
          ∧ ∀ part l1 l2, part ∈ enqueued st ++ [buffer st] →
                          part ≠ l1 ++ String.list_ascii_of_string "," ++ l2.
Proof.
  split; [done|].
  apply (feed_lossless (String.list_ascii_of_string ",")
           [String.list_ascii_of_string "a,b"; String.list_ascii_of_string "c,"]).
  done.
Defined.

Section WordsFacts.

Context `{Countable char}.
Implicit Types (s : list char) (x space : char).

Lemma split_single_length x s :
  length (split [x] s) = S (length (filter (x =.) s)).
Proof.
  induction s as [|c rest IH]; [done|].
  destruct (decide (x = c)) as [->|Hne].
  - rewrite split_match; [|done|done|by apply prefix_cons, prefix_nil].
    change (drop (length [c]) (c :: rest)) with rest.
    rewrite filter_cons_True by done. cbn [length]. by rewrite IH.
  - destruct (split_no_match [x] c rest) as (hd & tl & Hrest & ->); [done| |].
    + by intros Hp%prefix_cons_inv_1.
    + rewrite filter_cons_False by done. by rewrite <- IH, Hrest.
Qed.

Lemma filter_all {A : Type} (P : A → Prop) `{∀ a, Decision (P a)} (l : list A) :
  Forall P l → filter P l = l.
Proof.
  induction 1 as [|a l Ha _ IH]; [done|].
  rewrite filter_cons_True by done. by f_equal.
Qed.

(** X10. Compared with itself, a string has as many common words as it has
    words, one more than the spaces of its lower-case form: at least one,
    also when the string is empty. *)
Theorem getNumCommonWords_self (toLocaleLowerCase : list char → list char)
  space s :
  getNumCommonWords toLocaleLowerCase space s s
  = S (length (filter (space =.) (toLocaleLowerCase s))).
Proof.
  unfold getNumCommonWords. rewrite <- split_single_length.
  f_equal. apply filter_all, Forall_forall. intros w Hw.
  by apply elem_of_list_to_set.
Qed.

End WordsFacts.

Lemma getNumCommonWords_empty :
  getNumCommonWords (λ s : list ascii, s) " "%char [] [] = 1%nat.
Proof. vm_compute. reflexivity. Qed.

(** *** Timing *)

Import Timing.

Section TimingFacts.

(** One call keeps the queue equal to the table of running timers, and
    prints no warning then. *)
Lemma timeit_in_step label show w :
  timers w = timeitQueue w →
  timers (timeit label show w) = timeitQueue (timeit label show w)
  ∧ warnings (timeit label show w) = warnings w.
Proof.
  intros Heq. unfold timeit, console_time, console_timeEnd.
  destruct show; [|done]. rewrite Heq.
  destruct (bool_decide (label ∈ timeitQueue w)); simpl; by rewrite ?Heq.
Qed.

Lemma timeit_queue label w :
  timeitQueue (timeit label true w)
  = if bool_decide (label ∈ timeitQueue w) then timeitQueue w ∖ {[label]}
    else {[label]} ∪ timeitQueue w.
Proof.
  unfold timeit, console_time, console_timeEnd.
  destruct (bool_decide (label ∈ timeitQueue w)), (bool_decide (label ∈ timers w)); done.
Qed.

(** X11. Starting with no timer, after any series of calls of [timeit] the
    queue holds exactly the labels whose timer runs, and the console has
    printed no warning: [timeit] never ends a timer that does not run and
    never starts one that does. A label timed twice is out of the queue
    again. *)
Theorem timeit_balanced (calls : list (string * bool)) :
  timers (timeit_all calls (World ∅ ∅ 0)) = timeitQueue (timeit_all calls (World ∅ ∅ 0))
  ∧ warnings (timeit_all calls (World ∅ ∅ 0)) = 0%nat
  ∧ ∀ label, timeitQueue (timeit label true (timeit label true
                 (timeit_all calls (World ∅ ∅ 0))))
             = timeitQueue (timeit_all calls (World ∅ ∅ 0)).
Proof.
  assert (Hinv : timers (timeit_all calls (World ∅ ∅ 0))
                 = timeitQueue (timeit_all calls (World ∅ ∅ 0))
                 ∧ warnings (timeit_all calls (World ∅ ∅ 0)) = 0%nat).
  { unfold timeit_all. induction calls as [|[label show] calls IH] using rev_ind; [done|].
    rewrite foldl_app. simpl. destruct IH as [Heq Hw].
    destruct (timeit_in_step label show _ Heq) as [Heq' Hw']. split; [done | congruence]. }
  destruct Hinv as [Heq Hw]. split_and!; [done..|].
  intros label. generalize (timeit_all calls (World ∅ ∅ 0)). intros w.
  rewrite !timeit_queue. simpl.
  destruct (decide (label ∈ timeitQueue w)) as [Hin|Hout].
  - rewrite (bool_decide_eq_true_2 (label ∈ timeitQueue w)) by done.
    rewrite bool_decide_eq_false_2.
    + apply set_eq. intros l.
      rewrite elem_of_union, elem_of_difference, elem_of_singleton.
      destruct (decide (l = label)) as [->|]; intuition congruence.
    + rewrite elem_of_difference, elem_of_singleton. intuition congruence.
  - rewrite (bool_decide_eq_false_2 (label ∈ timeitQueue w)) by done.
    rewrite bool_decide_eq_true_2.
    + apply set_eq. intros l.
      rewrite elem_of_difference, elem_of_union, elem_of_singleton.
      destruct (decide (l = label)) as [->|]; intuition congruence.
    + rewrite elem_of_union, elem_of_singleton. by left.
Qed.

End TimingFacts.

(** *** More on the edit distance *)

Section EditDistanceMore.

Context {char : Type} `{EqDecision char}.
Implicit Types a b : list char.

Lemma align_zero a b : align 0 a b → a = b.
Proof.
  remember 0%nat as k eqn:Hk. induction 1; simplify_eq; [done|].
  f_equal. auto.
Qed.

Lemma align_lengths k a b :
  align k a b → (length a ≤ length b + k)%nat ∧ (length b ≤ length a + k)%nat.
Proof. induction 1; simpl; lia. Qed.

Lemma lev_upper a b : (lev a b ≤ length a `max` length b)%nat.
Proof.
  revert b. induction a as [|x a IH]; intros b.
  - rewrite lev_nil_l. lia.
  - destruct b as [|y b]; [rewrite lev_nil_r; lia|].
    rewrite lev_cons. specialize (IH b). simpl. case_decide; lia.
Qed.

(** X12. The distance does not depend on the order of the two strings. *)
Theorem levenshtein_symmetric a b :
  calculateLevenshteinDistance a b = calculateLevenshteinDistance b a.
Proof. rewrite !calculateLevenshteinDistance_lev. by rewrite lev_sym. Qed.

(** X13. The distance is 0 exactly between a string and itself. *)
Theorem levenshtein_zero_iff_equal a b :
  calculateLevenshteinDistance a b = Some 0 ↔ a = b.
Proof.
  rewrite calculateLevenshteinDistance_lev. split.
  - intros [= Hzero]. apply align_zero.
    replace 0%nat with (lev a b) by lia. apply lev_align.
  - intros ->. by rewrite lev_refl.
Qed.

(** X14. The distance lies between the difference of the two lengths and
    the larger of them. *)
Theorem levenshtein_bounds a b :
  ∃ d : Z,
    calculateLevenshteinDistance a b = Some d
    ∧ Z.abs (Z.of_nat (length a) - Z.of_nat (length b)) ≤ d
    ∧ d ≤ Z.max (Z.of_nat (length a)) (Z.of_nat (length b)).
Proof.
  exists (Z.of_nat (lev a b)). split; [apply calculateLevenshteinDistance_lev|].
  pose proof (align_lengths _ _ _ (lev_align a b)).
  pose proof (lev_upper a b). lia.
Qed.

End EditDistanceMore.

(** *** More on chunks *)

Section ChunkMore.

Context {T : Type}.
Implicit Types (array : list T) (result cs : list (list T)).

(** The chunks that the loop adds from [i] on, one by one. *)
Lemma chunk_loop_lookup fuel array size i result :
  0 < size → 0 ≤ i → Z.of_nat (length array) - i ≤ Z.of_nat fuel →
  ∃ cs, chunk_loop fuel array size i result = Some (result ++ cs)
        ∧ ∀ k : nat,
            cs !! k =
              if decide (i + Z.of_nat k * size < Z.of_nat (length array))
              then Some (take (Z.to_nat size) (drop (Z.to_nat (i + Z.of_nat k * size)) array))
              else None.
Proof.
  intros Hsize. revert i result. induction fuel as [|fuel IH]; intros i result Hi Hfuel.
  - exists []. split.
    + simpl. rewrite bool_decide_eq_false_2 by lia. by rewrite (right_id_L [] (++)).
    + intros k. rewrite decide_False by nia. done.
  - destruct (decide (i < Z.of_nat (length array))) as [Hlt|Hge].
    + destruct (IH (i + size) (result ++ [slice array i (i + size)]))
        as (cs & Hrun & Hcs); [lia..|].
      exists (slice array i (i + size) :: cs). split.
      * simpl. rewrite bool_decide_eq_true_2 by done.
        by rewrite Hrun, <- (assoc_L (++)).
      * intros [|k].
        -- simpl. rewrite decide_True by lia. rewrite slice_inside by lia.
           do 3 f_equal. lia.
        -- simpl. rewrite Hcs.
           replace (i + size + Z.of_nat k * size) with (i + Z.of_nat (S k) * size) by lia.
           done.
    + exists []. split.
      * simpl. rewrite bool_decide_eq_false_2 by lia. by rewrite (right_id_L [] (++)).
      * intros k. rewrite decide_False by nia. done.
Qed.

(** X15. For a size above 0, [chunk] returns the quotient of
    [array.length + size - 1] by [size] chunks (the length divided by the
    size, rounded up), and chunk [k] holds the [size] elements from index
    [k * size] on, or those that are left. *)
Theorem chunk_explicit (array : list T) (size : Z) :
  0 < size →
  ∃ cs, chunk array size = Some (Returns cs)
        ∧ Z.of_nat (length cs) = (Z.of_nat (length array) + size - 1) / size
        ∧ ∀ k : nat, (k < length cs)%nat →
            cs !! k = Some (take (Z.to_nat size) (drop (k * Z.to_nat size) array)).
Proof.
  intros Hsize.
  destruct (chunk_loop_lookup (length array) array size 0 [] Hsize)
    as (cs & Hrun & Hcs); [lia..|].
  exists cs. unfold chunk. rewrite bool_decide_eq_false_2 by lia.
  rewrite Hrun. simpl. split; [done|].
  set (n := Z.of_nat (length array)) in *.
  set (q := (n + size - 1) / size).
  assert (Hq : q * size < n + size ∧ n ≤ q * size).
  { pose proof (Z.div_mod (n + size - 1) size ltac:(lia)) as Hdm.
    pose proof (Z.mod_pos_bound (n + size - 1) size Hsize). fold q in Hdm. nia. }
  assert (Hin : ∀ k : nat, (k < length cs)%nat ↔ Z.of_nat k * size < n).
  { intros k. rewrite <- lookup_lt_is_Some, Hcs. simpl.
    case_decide.
    - split; [done | by eexists].
    - split; [by intros [? ?] | done]. }
  assert (0 ≤ q) by (apply Z.div_pos; lia).
  split.
  - apply Z.le_antisymm.
    + destruct (decide (Z.of_nat (length cs) ≤ q)) as [|Hgt]; [done|].
      assert (Z.to_nat q < length cs)%nat as Hk%Hin by lia. rewrite Z2Nat.id in Hk by lia. lia.
    + destruct (decide (q ≤ Z.of_nat (length cs))) as [|Hlt]; [done|].
      assert (¬ (length cs < length cs)%nat) as Hno by lia.
      rewrite Hin in Hno. nia.
  - intros k Hk. rewrite Hcs. simpl. apply Hin in Hk.
    rewrite decide_True by done. do 3 f_equal. nia.
Qed.

End ChunkMore.

Lemma chunk_explicit_witness :
  0 < 2
  ∧ ∃ cs, chunk [1; 2; 3; 4; 5]%nat 2 = Some (Returns cs)
          ∧ Z.of_nat (length cs) = (Z.of_nat (length [1; 2; 3; 4; 5]%nat) + 2 - 1) / 2
          ∧ ∀ k : nat, (k < length cs)%nat →
              cs !! k = Some (take (Z.to_nat 2) (drop (k * Z.to_nat 2) [1; 2; 3; 4; 5]%nat)).
Proof.
  split; [lia|]. apply (chunk_explicit [1; 2; 3; 4; 5]%nat 2). lia.
Defined.

(** *** More on samples *)

Section SampleMore.

Context {T : Type} {source : Type} `{!Uniform source}.
Implicit Types (items r : list T) (idxs : list nat).

Lemma selected_shift (x0 : T) items idxs r :
  0%nat ∉ idxs →
  Forall2 (λ i x, (x0 :: items) !! i = Some x) idxs r →
  Forall2 (λ i x, items !! i = Some x) (pred <$> idxs) r.
Proof.
  intros Hzero Hsel. induction Hsel as [|i x idxs r Hi _ IH]; [constructor|].
  apply not_elem_of_cons in Hzero as [Hi0 Hzero].
  simpl. constructor; [|by apply IH].
  destruct i; [done | exact Hi].
Qed.

Lemma NoDup_pred idxs : 0%nat ∉ idxs → NoDup idxs → NoDup (pred <$> idxs).
Proof.
  intros Hzero Hnd. induction Hnd as [|i idxs Hi _ IH]; [constructor|].
  apply not_elem_of_cons in Hzero as [Hi0 Hzero].
  simpl. constructor; [|by apply IH].
  intros (j & Hj & Hin)%list_elem_of_fmap. apply Hi.
  assert (j ≠ 0%nat) by (by intros ->).
  replace i with j by lia. done.
Qed.

(** Items selected at pairwise different indices form a sub-multiset. *)
Lemma selected_submseteq items idxs r :
  NoDup idxs → Forall2 (λ i x, items !! i = Some x) idxs r → r ⊆+ items.
Proof.
  revert idxs r. induction items as [|x0 items IH]; intros idxs r Hnd Hsel.
  - destruct Hsel as [|i x idxs r Hi _]; [done | by destruct i].
  - destruct (decide (0%nat ∈ idxs)) as [Hin|Hout].
    + apply list_elem_of_split in Hin as (l1 & l2 & ->).
      apply Forall2_app_inv_l in Hsel as (r1 & r' & Hsel1 & Hsel2 & ->).
      apply Forall2_cons_inv_l in Hsel2 as (x & r2 & [= <-] & Hsel2 & ->).
      apply NoDup_app in Hnd as (Hnd1 & Hdisj & [Hz2 Hnd2]%NoDup_cons).
      assert (0%nat ∉ l1 ++ l2).
      { intros [Hz|Hz]%elem_of_app; [|done]. apply (Hdisj _ Hz). by left. }
      rewrite <- Permutation_middle. apply submseteq_skip.
      apply (IH (pred <$> (l1 ++ l2))).
      * apply NoDup_pred; [done|]. apply NoDup_app. split_and!; [done| |done].
        intros i Hi1 Hi2. apply (Hdisj _ Hi1). by right.
      * apply (selected_shift x0); [done|]. by apply Forall2_app.
    + apply submseteq_cons, (IH (pred <$> idxs)).
      * by apply NoDup_pred.
      * by apply (selected_shift x0).
Qed.

(** X16. Every element of a sample is an element of [items]; without
    replacement the sample is a sub-multiset of [items]: no item comes more
    often than it stands in [items]. *)
Theorem sample_from_items items (size seed : Z) (replace : bool) (fuel : nat) r :
  getRandomSamples fuel items size seed replace = Some r →
  (∀ x, x ∈ r → x ∈ items) ∧ (replace = false → r ⊆+ items).
Proof.
  intros (s & Hrun & <-)%getRandomSamples_some.
  destruct (getRandomSamples_run_accounted _ _ _ _ _ _ Hrun) as (idxs & [_ Hsel] & Hnd).
  split.
  - intros x Hx. apply list_elem_of_lookup in Hx as [k Hk].
    destruct (Forall2_lookup_r _ _ _ _ _ Hsel Hk) as (i & _ & Hi).
    by eapply list_elem_of_lookup_2.
  - intros Hrep. apply (selected_submseteq items idxs); [by apply Hnd | done].
Qed.

(** X17. Asking, with replacement, for at least as many elements as there
    are gives every item once, in order: the call returns [items] itself
    after one pass, so nothing is drawn twice. The generator is assumed to
    return numbers of at most 1. *)
Theorem whole_population_with_replacement items (size seed : Z) :
  unit_range → items ≠ [] → Z.of_nat (length items) ≤ size →
  getRandomSamples 1 items size seed true = Some items.
Proof. intros Hrange Hne Hsize. by apply getRandomSamples_run_full. Qed.

End SampleMore.

Lemma sample_from_items_witness :
  getRandomSamples 2 [10; 20; 30]%nat 2 1212 false = Some [20; 10]%nat
  ∧ (∀ x, x ∈ [20; 10]%nat → x ∈ [10; 20; 30]%nat)
  ∧ (false = false → [20; 10]%nat ⊆+ [10; 20; 30]%nat).
Proof.
  assert (Hrun : getRandomSamples 2 [10; 20; 30]%nat 2 1212 false = Some [20; 10]%nat)
    by (vm_compute; reflexivity).
  split; [exact Hrun|].
  apply (sample_from_items [10; 20; 30]%nat 2 1212 false 2 [20; 10]%nat Hrun).
Defined.

Lemma whole_population_with_replacement_witness :
  unit_range (source := Z)
  ∧ [10; 20; 30]%nat ≠ []
  ∧ Z.of_nat (length [10; 20; 30]%nat) ≤ 5
  ∧ getRandomSamples 1 [10; 20; 30]%nat 5 1212 true = Some [10; 20; 30]%nat.
Proof.
  split; [exact d3_unit_range|]. split; [done|]. split; [simpl; lia|].
  apply (whole_population_with_replacement [10; 20; 30]%nat 5 1212);
    [exact d3_unit_range | done | simpl; lia].
Defined.

(** *** Tooltip timers *)

Import Tooltip.

Section TooltipFacts.

Implicit Types (p : page) (e : event) (cb : callback).

Lemma idle_tracked h : tracked (idle h).
Proof.
  split_and!; simpl.
  - intros id cb. by rewrite lookup_empty.
  - done.
  - done.
  - intros id [cb Hcb]. by rewrite lookup_empty in Hcb.
Qed.

Lemma cancel_mouseenter_tracked p :
  tracked p →
  tracked (cancel_mouseenter p)
  ∧ mouseenterTimer (cancel_mouseenter p) = None
  ∧ mouseleaveTimer (cancel_mouseenter p) = mouseleaveTimer p
  ∧ next_id (cancel_mouseenter p) = next_id p
  ∧ hidden (cancel_mouseenter p) = hidden p.
Proof.
  intros Hp. unfold cancel_mouseenter.
  destruct (mouseenterTimer p) as [id|] eqn:Henter; [|by split_and!].
  destruct Hp as (Hheld & Hleave & Hnot & Hbound). simpl.
  split_and!; try done. split_and!; simpl.
  - intros id' cb. rewrite lookup_delete. case_decide as Hid; [done|].
    intros [[-> Hid']|?]%Hheld; [congruence | by right].
  - intros id' Hid'. rewrite lookup_delete. case_decide as Hid; [|by apply Hleave].
    subst id'. apply Hleave in Hid'. by apply Hnot in Henter.
  - done.
  - intros id' [cb Hcb]. rewrite lookup_delete in Hcb. case_decide; [done|].
    apply Hbound. by exists cb.
Qed.

Lemma cancel_mouseleave_tracked p :
  tracked p →
  tracked (cancel_mouseleave p)
  ∧ mouseleaveTimer (cancel_mouseleave p) = None
  ∧ mouseenterTimer (cancel_mouseleave p) = mouseenterTimer p
  ∧ next_id (cancel_mouseleave p) = next_id p
  ∧ hidden (cancel_mouseleave p) = hidden p.
Proof.
  intros Hp. unfold cancel_mouseleave.
  destruct (mouseleaveTimer p) as [id|] eqn:Hl; [|by split_and!].
  destruct Hp as (Hheld & Hleave & Hnot & Hbound). simpl.
  split_and!; try done. split_and!; simpl.
  - intros id' cb. rewrite lookup_delete. case_decide as Hid; [done|].
    intros [?|[-> Hid']]%Hheld; [by left | congruence].
  - done.
  - intros id' Hid'. rewrite lookup_delete. case_decide; [done | by apply Hnot].
  - intros id' [cb Hcb]. rewrite lookup_delete in Hcb. case_decide; [done|].
    apply Hbound. by exists cb.
Qed.

(** Setting a timeout into a free field keeps the fields in step. *)
Lemma arm_mouseenter_tracked p :
  tracked p → mouseenterTimer p = None →
  tracked (set_mouseenterTimer (Some (next_id p)) (setTimeout ShowTooltip p).2).
Proof.
  intros (Hheld & Hleave & Hnot & Hbound) Hnone. split_and!; simpl.
  - intros id cb. rewrite lookup_insert. case_decide as Hid.
    + subst id. intros [= <-]. by left.
    + intros [[_ ?]|?]%Hheld; [congruence | by right].
  - intros id Hid. rewrite lookup_insert. case_decide as Hnew; [|by apply Hleave].
    subst id. apply Hleave in Hid.
    assert (next_id p < next_id p)%nat; [|lia]. apply Hbound. by eexists.
  - intros id [= <-]. by rewrite lookup_insert_eq.
  - intros id [cb Hcb]. rewrite lookup_insert in Hcb. case_decide; [lia|].
    assert (id < next_id p)%nat by (apply Hbound; by exists cb). lia.
Qed.

Lemma arm_mouseleave_tracked p :
  tracked p → mouseenterTimer p = None → mouseleaveTimer p = None →
  tracked (set_mouseleaveTimer (Some (next_id p)) (setTimeout HideTooltip p).2).
Proof.
  intros (Hheld & Hleave & Hnot & Hbound) Henter Hnone. split_and!; simpl.
  - intros id cb. rewrite lookup_insert. case_decide as Hid.
    + subst id. intros [= <-]. by right.
    + intros [?|[_ ?]]%Hheld; [by left | congruence].
  - intros id [= <-]. by rewrite lookup_insert_eq.
  - by rewrite Henter.
  - intros id [cb Hcb]. rewrite lookup_insert in Hcb. case_decide; [lia|].
    assert (id < next_id p)%nat by (apply Hbound; by exists cb). lia.
Qed.

Lemma set_hidden_tracked h p : tracked p → tracked (set_hidden h p).
Proof. done. Qed.

(** A timeout that fires leaves the fields in step, also when the closure
    that shows the tooltip ends in an exception. *)
Lemma fire_tracked p id cb found :
  tracked p → pending p !! id = Some cb →
  tracked (run cb found (clearTimeout id p)).
Proof.
  intros (Hheld & Hleave & Hnot & Hbound) Hcb.
  destruct (Hheld id cb Hcb) as [[-> Henter]|[-> Hl]].
  - assert (tracked (clearTimeout id p)) as Hcleared.
    { split_and!; simpl.
      - intros id' cb. rewrite lookup_delete. case_decide; [done | apply Hheld].
      - intros id' Hid'. rewrite lookup_delete. case_decide as Hid; [|by apply Hleave].
        subst id'. apply Hleave in Hid'. congruence.
      - intros id'. rewrite lookup_delete. case_decide; [done | apply Hnot].
      - intros id' [cb Hcb']. rewrite lookup_delete in Hcb'. case_decide; [done|].
        apply Hbound. by exists cb. }
    destruct found; simpl; [|exact Hcleared].
    pose proof (cancel_mouseenter_tracked p (conj Hheld (conj Hleave (conj Hnot Hbound))))
      as (Hc & _).
    unfold cancel_mouseenter in Hc. rewrite Henter in Hc. exact Hc.
  - pose proof (cancel_mouseleave_tracked p (conj Hheld (conj Hleave (conj Hnot Hbound))))
      as (Hc & _).
    unfold cancel_mouseleave in Hc. rewrite Hl in Hc. exact Hc.
Qed.

Lemma react_tracked p e : tracked p → tracked (react p e).
Proof.
  intros Hp. destruct e as [| |id found|h]; simpl.
  - destruct (hidden p).
    + destruct (cancel_mouseenter_tracked p Hp) as (Hc & Hnone & _).
      by apply arm_mouseenter_tracked.
    + by apply cancel_mouseleave_tracked.
  - destruct (cancel_mouseenter_tracked p Hp) as (Hc & Hnone & _).
    destruct (cancel_mouseleave_tracked _ Hc) as (Hc' & Hnone' & Henter & _).
    apply arm_mouseleave_tracked; [done | congruence | done].
  - destruct (pending p !! id) as [cb|] eqn:Hcb; [|done].
    by apply fire_tracked.
  - done.
Qed.

Lemma reacts_tracked h (events : list event) : tracked (foldl react (idle h) events).
Proof.
  induction events as [|e events IH] using rev_ind; [apply idle_tracked|].
  rewrite foldl_app. simpl. by apply react_tracked.
Qed.



(** The timeout that shows the tooltip fires while the tooltip element has
    no ['.popper-content']: [mouseenterTimer] keeps the identifier of a
    timeout that is gone. *)
Example mouseenterTimer_stale :
  mouseenterTimer (foldl react (idle true) [MouseEnter; Fire 0 false]) = Some 0%nat
  ∧ pending (foldl react (idle true) [MouseEnter; Fire 0 false]) !! 0%nat = None.
Proof. split; vm_compute; reflexivity. Qed.



(** X19. After [tooltipMouseLeave], whatever happened before, one timeout
    is pending, the one that hides the tooltip: a timeout that would show
    it has been cleared. *)
Theorem tooltip_after_mouse_leave (h : bool) (events : list event) :
  ∃ id,
    pending (react (foldl react (idle h) events) MouseLeave) = {[id := HideTooltip]}
    ∧ mouseleaveTimer (react (foldl react (idle h) events) MouseLeave) = Some id
    ∧ mouseenterTimer (react (foldl react (idle h) events) MouseLeave) = None.
Proof.
  pose proof (reacts_tracked h events) as Hp.
  generalize dependent (foldl react (idle h) events). intros p Hp.
  destruct (cancel_mouseenter_tracked p Hp) as (Hc & Hnone & _).
  destruct (cancel_mouseleave_tracked _ Hc) as ([Hheld _] & Hnone' & Henter & _).
  rewrite Hnone in Henter.
  exists (next_id (cancel_mouseleave (cancel_mouseenter p))).
  simpl. split_and!; [|done..].
  assert (pending (cancel_mouseleave (cancel_mouseenter p)) = ∅) as ->;
    [|apply insert_empty].
  apply map_eq. intros id. rewrite lookup_empty.
  destruct (pending (cancel_mouseleave (cancel_mouseenter p)) !! id) as [cb|] eqn:Hcb;
    [|done].
  apply Hheld in Hcb as [[_ Hid]|[_ Hid]]; congruence.
Qed.

End TooltipFacts.
